(** * Motion R-CNN: [object_detection/utils/np_motion_util.py]

    A shallow embedding of the dense-flow synthesiser, the box matcher and
    the motion-error evaluator, with the properties the specification states
    about them.

    Modelling conventions.
    - The array model (shapes, indexing, broadcasting, exceptions, the order
      of the operations) holds exact real numbers: a NumPy float is [Fin r]
      or the single value [NonFinite], which stands for the IEEE results
      [inf], [-inf] and [nan] that NumPy produces on a division by zero.  It
      serves for what does not depend on how the arithmetic rounds.
      [NonFinite] is absorbing; the one IEEE operation that leads from a
      non-finite operand back to a finite result, [x / inf], does not occur:
      where the module divides by a coordinate that is not finite, the
      numerator is [nan].
    - What the flow synthesiser computes for one pixel is written a second
      time, over any arithmetic ([pixel_flow]); in the arithmetic of the
      array model it is the entry of the array model's result
      ([flow_at_is_pixel_flow], [flow_of_each_pixel]).  What depends on
      rounding, overflow, NaN or the sign of a zero is stated on its instance
      [binary64]: IEEE 754 binary64 as Rocq's primitive floats have it, the
      arithmetic of a call on arrays of dtype [float64].
    - Input arrays of the array model hold finite reals ([R]); intermediate
      arrays hold [npfloat].
    - An array is a nested list, outermost axis first.  A trailing axis whose
      extent is fixed by the code ([np.stack] of three or two arrays,
      [np.reshape] to [[3]] or [[3, 3]]) is a triple or a pair.
    - A call returns [Ok v] or raises: [Raise e]. *)

From Stdlib Require Import String Reals Lra Lia Arith Bool List Sorted.
From Stdlib Require Import ZArith QArith Qfield.
From Stdlib Require Import SpecFloat FloatOps FloatAxioms.
From Stdlib Require PrimFloat Uint63.
Import ListNotations.
Local Open Scope R_scope.

(** ** Exceptions and results *)

Inductive exn : Type :=
| IndexError (msg : string)
| ValueError (msg : string)
| AttributeError (msg : string)
| NameError (msg : string).

Inductive result (A : Type) : Type :=
| Ok (a : A)
| Raise (e : exn).

Arguments Ok {A} a.
Arguments Raise {A} e.

Definition bind {A B : Type} (r : result A) (k : A -> result B) : result B :=
  match r with
  | Ok a => k a
  | Raise e => Raise e
  end.

Notation "x <- r ;; k" := (bind r (fun x => k))
  (at level 61, r at next level, right associativity).
Notation "' pat <- r ;; k" := (bind r (fun x => match x with pat => k end))
  (at level 61, pat pattern, r at next level, right associativity).

Fixpoint mapM {A B : Type} (f : A -> result B) (l : list A) : result (list B) :=
  match l with
  | [] => Ok []
  | a :: t => b <- f a ;; bs <- mapM f t ;; Ok (b :: bs)
  end.

Fixpoint foldM {A S : Type} (f : S -> A -> result S) (l : list A) (s : S)
  : result S :=
  match l with
  | [] => Ok s
  | a :: t => s' <- f s a ;; foldM f t s'
  end.

(** ** Float values *)

Inductive npfloat : Type :=
| Fin (r : R)
| NonFinite.

Definition lift2 (op : R -> R -> R) (a b : npfloat) : npfloat :=
  match a, b with
  | Fin x, Fin y => Fin (op x y)
  | _, _ => NonFinite
  end.

Definition fadd : npfloat -> npfloat -> npfloat := lift2 Rplus.
Definition fsub : npfloat -> npfloat -> npfloat := lift2 Rminus.
Definition fmul : npfloat -> npfloat -> npfloat := lift2 Rmult.

(** [a / b]: a zero divisor gives [inf] or [nan]. *)
Definition fdiv (a b : npfloat) : npfloat :=
  match a, b with
  | Fin x, Fin y => if Req_dec_T y 0 then NonFinite else Fin (x / y)
  | _, _ => NonFinite
  end.

(** ** Arrays *)

Abbreviation array2 A := (list (list A)) (only parsing).
Abbreviation array3 A := (list (list (list A))) (only parsing).

Fixpoint map2 {A B C : Type} (f : A -> B -> C) (l1 : list A) (l2 : list B)
  : list C :=
  match l1, l2 with
  | a :: t1, b :: t2 => f a b :: map2 f t1 t2
  | _, _ => []
  end.

Definition grid_map {A B : Type} (f : A -> B) (g : array2 A) : array2 B :=
  map (map f) g.

Definition grid_map2 {A B C : Type} (f : A -> B -> C)
  (g1 : array2 A) (g2 : array2 B) : array2 C :=
  map2 (map2 f) g1 g2.

(** [has_shape h w g]: [g] is a rectangular [[h, w]] array. *)
Definition has_shape {A : Type} (h w : nat) (g : array2 A) : Prop :=
  length g = h /\ Forall (fun row => length row = w) g.

Definition vec3 : Type := (npfloat * npfloat * npfloat)%type.
Definition mat3 : Type := (vec3 * vec3 * vec3)%type.

(** [np.stack([a, b, c], axis=2)] and [np.stack([a, b], axis=2)]. *)
Definition stack3 {A : Type} (a b c : array2 A) : array2 (A * A * A) :=
  grid_map2 (fun ab z => (fst ab, snd ab, z)) (grid_map2 pair a b) c.

Definition stack2 {A : Type} (a b : array2 A) : array2 (A * A) :=
  grid_map2 pair a b.

(** [f, x0, y0 = camera_intrinsics]. *)
Definition unpack3 (l : list R) : result (R * R * R) :=
  match l with
  | [a; b; c] => Ok (a, b, c)
  | _ :: _ :: _ :: _ :: _ =>
      Raise (ValueError "too many values to unpack (expected 3)")
  | _ => Raise (ValueError "not enough values to unpack (expected 3)")
  end.

(** ** Projection primitives (lines 12-28) *)

Definition _pixels_to_3d (x y d : array2 npfloat) (camera_intrinsics : list R)
  : result (array2 npfloat * array2 npfloat * array2 npfloat) :=
  '(f, x0, y0) <- unpack3 camera_intrinsics ;;
  let factor := grid_map (fun v => fdiv v (Fin f)) d in
  let X := grid_map2 fmul (grid_map (fun v => fsub v (Fin x0)) x) factor in
  let Y := grid_map2 fmul (grid_map (fun v => fsub v (Fin y0)) y) factor in
  let Z := d in
  Ok (X, Y, Z).

Definition _3d_to_pixels (points : array2 vec3) (camera_intrinsics : list R)
  : result (array2 npfloat * array2 npfloat) :=
  '(f, x0, y0) <- unpack3 camera_intrinsics ;;
  let X := grid_map (fun p : vec3 => fst (fst p)) points in
  let Y := grid_map (fun p : vec3 => snd (fst p)) points in
  let Z := grid_map (fun p : vec3 => snd p) points in
  let x := grid_map (fun v => fadd v (Fin x0))
             (grid_map2 fdiv (grid_map (fmul (Fin f)) X) Z) in
  let y := grid_map (fun v => fadd v (Fin y0))
             (grid_map2 fdiv (grid_map (fmul (Fin f)) Y) Z) in
  Ok (x, y).

(** ** Broadcasting *)

Definition broadcast_error : exn :=
  ValueError "operands could not be broadcast together".

Definition output_broadcast_error : exn :=
  ValueError "non-broadcastable output operand".

(** One axis of a binary operation that allocates its result: equal extents
    pair up, an extent of 1 is repeated, anything else raises. *)
Definition broadcast_zip {A B C : Type} (f : A -> B -> result C)
  (l1 : list A) (l2 : list B) : result (list C) :=
  if Nat.eqb (length l1) (length l2)
  then mapM (fun ab => f (fst ab) (snd ab)) (combine l1 l2)
  else match l1, l2 with
       | [a], _ => mapM (f a) l2
       | _, [b] => mapM (fun a => f a b) l1
       | _, _ => Raise broadcast_error
       end.

(** One axis of an in-place operation [out op= arg]: the extent of [arg] is
    that of [out], or 1. *)
Definition broadcast_into {A B : Type} (f : A -> B -> result A)
  (out : list A) (arg : list B) : result (list A) :=
  if Nat.eqb (length arg) (length out)
  then mapM (fun ab => f (fst ab) (snd ab)) (combine out arg)
  else match arg with
       | [b] => mapM (fun a => f a b) out
       | _ => Raise output_broadcast_error
       end.

(** ** 3-vectors and 3x3 matrices over a scalar type *)

Section Linear.
Variable A : Type.
Variables (add sub mul : A -> A -> A).

Definition v3 : Type := (A * A * A)%type.
Definition m3 : Type := (v3 * v3 * v3)%type.

Definition vadd (u v : v3) : v3 :=
  let '(a, b, c) := u in let '(x, y, z) := v in (add a x, add b y, add c z).

Definition vsub (u v : v3) : v3 :=
  let '(a, b, c) := u in let '(x, y, z) := v in (sub a x, sub b y, sub c z).

Definition vscale (k : A) (v : v3) : v3 :=
  let '(x, y, z) := v in (mul k x, mul k y, mul k z).

Definition vdot (u v : v3) : A :=
  let '(a, b, c) := u in let '(x, y, z) := v in
  add (add (mul a x) (mul b y)) (mul c z).

(** [m.T] *)
Definition transpose (m : m3) : m3 :=
  let '((a, b, c), (d, e, f), (g, h, i)) := m in
  ((a, d, g), (b, e, h), (c, f, i)).

(** [v.dot(m)] for a row vector [v]: entry [k] is the product of [v] with
    column [k] of [m]. *)
Definition vec_mat (v : v3) (m : m3) : v3 :=
  let '(c1, c2, c3) := transpose m in (vdot v c1, vdot v c2, vdot v c3).

(** [m @ v] for a column vector [v]. *)
Definition mat_vec (m : m3) (v : v3) : v3 :=
  let '(r1, r2, r3) := m in (vdot r1 v, vdot r2 v, vdot r3 v).

(** [a @ b] *)
Definition matmul (a b : m3) : m3 :=
  let '(r1, r2, r3) := a in (vec_mat r1 b, vec_mat r2 b, vec_mat r3 b).

Definition trace (m : m3) : A :=
  let '((a, _, _), (_, e, _), (_, _, i)) := m in add (add a e) i.
End Linear.

Arguments vadd {A} add u v.
Arguments vsub {A} sub u v.
Arguments vscale {A} mul k v.
Arguments vdot {A} add mul u v.
Arguments transpose {A} m.
Arguments vec_mat {A} add mul v m.
Arguments mat_vec {A} add mul m v.
Arguments matmul {A} add mul a b.
Arguments trace {A} add m.

Definition vec3_of (v : v3 R) : vec3 :=
  let '(a, b, c) := v in (Fin a, Fin b, Fin c).

Definition mat3_of (m : m3 R) : mat3 :=
  let '(r1, r2, r3) := m in (vec3_of r1, vec3_of r2, vec3_of r3).

(** [np.reshape(a, [3])] and [np.reshape(a, [3, 3])] of a flat slice. *)
Definition reshape_error : exn := ValueError "cannot reshape array".

Definition reshape3 (a : list R) : result (v3 R) :=
  match a with
  | [x; y; z] => Ok (x, y, z)
  | _ => Raise reshape_error
  end.

Definition reshape33 (a : list R) : result (m3 R) :=
  match a with
  | [a; b; c; d; e; f; g; h; i] => Ok ((a, b, c), (d, e, f), (g, h, i))
  | _ => Raise reshape_error
  end.

(** [a[lo:hi]] and [a[lo:]] on one axis. *)
Definition slice {A : Type} (lo hi : nat) (a : list A) : list A :=
  firstn (hi - lo) (skipn lo a).

(** [a[i]] on the first axis, for an index that is not negative. *)
Definition index {A : Type} (a : list A) (i : nat) : result A :=
  match nth_error a i with
  | Some v => Ok v
  | None => Raise (IndexError "index is out of bounds for axis 0")
  end.

(** ** Dense flow synthesiser (lines 31-71) *)

(** The [depth] argument.  The docstring announces shape [[height, width, 1]],
    the specification's contract [[H, W]]; arrays of both ranks are inputs. *)
Inductive depth_array : Type :=
| Rank2 (a : array2 R)
| Rank3 (a : array3 R).

(** [depth.shape[:2]] *)
Definition shape_hw (depth : depth_array) : nat * nat :=
  match depth with
  | Rank2 a => (length a, length (hd [] a))
  | Rank3 a => (length a, length (hd [] a))
  end.

(** [depth[:, :, 0]] *)
Definition first_channel (depth : depth_array) : result (array2 R) :=
  match depth with
  | Rank2 _ =>
      Raise (IndexError "too many indices for array: array is 2-dimensional, but 3 were indexed")
  | Rank3 a =>
      mapM (mapM (fun px : list R =>
                    match px with
                    | v :: _ => Ok v
                    | [] => Raise (IndexError "index 0 is out of bounds for axis 2 with size 0")
                    end)) a
  end.

(** [np.linspace(start, stop, num)]: [num] evenly spaced samples over
    [[start, stop]]; a single sample is [start]. *)
Definition linspace (start stop : R) (num : nat) : list R :=
  map (fun i => start + INR i * ((stop - start) / INR (num - 1))) (seq 0 num).

(** [np.meshgrid(x_range, y_range)] *)
Definition meshgrid {A : Type} (x_range y_range : list A)
  : array2 A * array2 A :=
  (map (fun _ => x_range) y_range,
   map (fun yv => map (fun _ => yv) x_range) y_range).

(** [np.expand_dims(m, 2)]: the new trailing axis has extent 1, so an entry
    of the result is the entry of [m] that it holds. *)
Definition expand_dims {A : Type} (m : array2 A) : array2 A := m.

(** [a - v], [a + v] for a [[3]] vector [v], and [a.dot(m)], on an
    [[h, w, 3]] array. *)
Definition sub_vec (a : array2 vec3) (v : vec3) : array2 vec3 :=
  grid_map (fun p => vsub fsub p v) a.

Definition add_vec (a : array2 vec3) (v : vec3) : array2 vec3 :=
  grid_map (fun p => vadd fadd p v) a.

Definition dot (a : array2 vec3) (m : mat3) : array2 vec3 :=
  grid_map (fun p => vec_mat fadd fmul p m) a.

(** [a - b] on two arrays of one shape. *)
Definition sub_arr (a b : array2 vec3) : array2 vec3 :=
  grid_map2 (vsub fsub) a b.

(** [mask * e] for [mask] of shape [[h', w', 1]] and [e] of shape
    [[h, w, 3]]. *)
Definition mul_mask (mask : array2 npfloat) (e : array2 vec3)
  : result (array2 vec3) :=
  broadcast_zip
    (broadcast_zip (fun (m : npfloat) (v : vec3) => Ok (vscale fmul m v)))
    mask e.

(** [P += d] *)
Definition iadd (P d : array2 vec3) : result (array2 vec3) :=
  broadcast_into
    (broadcast_into (fun (p v : vec3) => Ok (vadd fadd p v)))
    P d.

(** The body of the loop over [i] (lines 57-61). *)
Definition object_update (motions : array2 R) (masks : array3 R)
  (P : array2 vec3) (i : nat) : result (array2 vec3) :=
  motion <- index motions i ;;
  rot <- reshape33 (slice 0 9 motion) ;;
  trans <- reshape3 (slice 9 12 motion) ;;
  pivot <- reshape3 (skipn 12 motion) ;;
  m <- index masks i ;;
  let rot := mat3_of rot in
  let trans := vec3_of trans in
  let pivot := vec3_of pivot in
  let mask := expand_dims (grid_map Fin m) in
  d <- mul_mask mask
         (sub_arr
            (add_vec (add_vec (dot (sub_vec P pivot) (transpose rot)) pivot) trans)
            P) ;;
  iadd P d.

(** The loop [for i in range(motions.shape[0])] (lines 56-61). *)
Definition apply_objects (motions : array2 R) (masks : array3 R)
  (P : array2 vec3) : result (array2 vec3) :=
  foldM (object_update motions masks) (seq 0 (length motions)) P.

(** [trans_cam], a flat array of any extent, as the right operand of the
    addition on line 65: its extent is 3 or 1. *)
Definition broadcast3 (a : list R) : result vec3 :=
  match a with
  | [x; y; z] => Ok (Fin x, Fin y, Fin z)
  | [x] => Ok (Fin x, Fin x, Fin x)
  | _ => Raise broadcast_error
  end.

Inductive np_dtype : Type := float64 | float32.

Record ndarray (A : Type) : Type := mk_ndarray {
  dtype : np_dtype;
  values : A
}.

Arguments mk_ndarray {A} dtype values.
Arguments dtype {A} n.
Arguments values {A} n.

(** [a.astype(dt)]; the rounding of the values is not modelled. *)
Definition astype {A : Type} (dt : np_dtype) (a : A) : ndarray A :=
  mk_ndarray dt a.

Definition pair_sub (p q : npfloat * npfloat) : npfloat * npfloat :=
  (fsub (fst p) (fst q), fsub (snd p) (snd q)).

Definition flow_field : Type := ndarray (array2 (npfloat * npfloat)).

(** Lines 46-54: the pixel coordinates [points] and the point field [P]. *)
Definition pixel_points (depth : depth_array) (camera_intrinsics : list R)
  : result (array2 (npfloat * npfloat) * array2 vec3) :=
  let '(h, w) := shape_hw depth in
  depth <- first_channel depth ;;
  let x_range := linspace 0 (INR w - 1) w in
  let y_range := linspace 0 (INR h - 1) h in
  let '(x, y) := meshgrid (map Fin x_range) (map Fin y_range) in
  '(X, Y, Z) <- _pixels_to_3d x y (grid_map Fin depth) camera_intrinsics ;;
  let points := stack2 x y in
  let P := stack3 X Y Z in
  Ok (points, P).

(** Lines 63-71: camera motion, projection, flow. *)
Definition camera_flow (P : array2 vec3) (points : array2 (npfloat * npfloat))
  (camera_motion camera_intrinsics : list R) : result flow_field :=
  rot_cam <- reshape33 (slice 0 9 camera_motion) ;;
  let trans_cam := skipn 9 camera_motion in
  trans_cam <- broadcast3 trans_cam ;;
  let P := add_vec (dot P (transpose (mat3_of rot_cam))) trans_cam in
  '(x_t, y_t) <- _3d_to_pixels P camera_intrinsics ;;
  let points_t := stack2 x_t y_t in
  let flow := grid_map2 pair_sub points_t points in
  Ok (astype float32 flow).

Definition dense_flow_from_motion (depth : depth_array) (motions : array2 R)
  (masks : array3 R) (camera_motion camera_intrinsics : list R)
  : result flow_field :=
  '(points, P) <- pixel_points depth camera_intrinsics ;;
  P <- apply_objects motions masks P ;;
  camera_flow P points camera_motion camera_intrinsics.

(** ** Motion error evaluator (lines 90-138) *)

Definition rmatmul : m3 R -> m3 R -> m3 R := matmul Rplus Rmult.

Definition identity3 : m3 R := ((1, 0, 0), (0, 1, 0), (0, 0, 1)).

(** [np.reshape(a, [-1, 3, 3])] and [np.reshape(a, [-1, 3, 1])] of the
    entries of [a] in row-major order. *)
Fixpoint reshape_n33 (a : list R) : result (list (m3 R)) :=
  match a with
  | [] => Ok []
  | a :: b :: c :: d :: e :: f :: g :: h :: i :: t =>
      rest <- reshape_n33 t ;; Ok (((a, b, c), (d, e, f), (g, h, i)) :: rest)
  | _ => Raise reshape_error
  end.

Fixpoint reshape_n31 (a : list R) : result (list (v3 R)) :=
  match a with
  | [] => Ok []
  | x :: y :: z :: t => rest <- reshape_n31 t ;; Ok ((x, y, z) :: rest)
  | _ => Raise reshape_error
  end.

(** [a[:, lo:hi]] *)
Definition columns (lo hi : nat) (a : array2 R) : array2 R :=
  map (slice lo hi) a.

(** [a - b] on two rank-2 arrays. *)
Definition sub2 (a b : array2 R) : result (array2 R) :=
  broadcast_zip (broadcast_zip (fun x y : R => Ok (x - y))) a b.

(** An array of rank 1 or 2. *)
Inductive rank12 : Type :=
| Rank1d (a : list R)
| Rank2d (a : array2 R).

(** [np.squeeze] of an [[n, 3, 1]] array: the axes of extent 1 go, also the
    first one when [n = 1]. *)
Definition squeeze (a : list (v3 R)) : rank12 :=
  match a with
  | [(x, y, z)] => Rank1d [x; y; z]
  | _ => Rank2d (map (fun v : v3 R => let '(x, y, z) := v in [x; y; z]) a)
  end.

Definition clip (v lo hi : R) : R := Rmin (Rmax v lo) hi.

(** The local function [_rotation_angle]; [np.acos] is read as the inverse
    cosine (it is an attribute of NumPy from release 2.0 only). *)
Definition _rotation_angle (mat : list (m3 R)) : list R :=
  map (fun m => acos (clip ((trace Rplus m - 1) / 2) (-1) 1)) mat.

(** [np.mean] of a rank-1 array. *)
Definition mean (a : list npfloat) : npfloat :=
  fdiv (fold_left fadd a (Fin 0)) (Fin (INR (length a))).

(** [np.norm]: the module [numpy] has no attribute [norm] (the function is
    [numpy.linalg.norm]), so that evaluating the attribute raises. *)
Definition np_norm : result (rank12 -> result (list R)) :=
  Raise (AttributeError "module 'numpy' has no attribute 'norm'").

(** A name that no assignment of the function binds. *)
Definition unbound_name {A : Type} (name : string) : result A :=
  Raise (NameError name).

(** [np.asscalar] (an attribute of NumPy up to release 1.22). *)
Definition asscalar (v : npfloat) : npfloat := v.

Definition error_report : Type := list (string * npfloat).

(** Line 138 is not a well-formed comprehension ([{k, e for ...}]); it is
    read as the dictionary comprehension [{k: e for ...}]. *)
Definition _motion_errors (pred target : array2 R) : result error_report :=
  rot <- reshape_n33 (concat (columns 0 9 pred)) ;;
  let trans := columns 9 12 pred in
  let pivot := columns 12 15 pred in
  gt_rot <- reshape_n33 (concat (columns 0 9 target)) ;;
  let gt_trans := columns 9 12 target in
  let gt_pivot := columns 12 15 target in
  let rot_T := map transpose rot in
  d_rot <- broadcast_zip (fun a b => Ok (rmatmul a b)) rot_T gt_rot ;;
  diff <- sub2 gt_trans trans ;;
  col <- reshape_n31 (concat diff) ;;
  prod <- broadcast_zip (fun a v => Ok (mat_vec Rplus Rmult a v)) rot_T col ;;
  let d_trans := squeeze prod in
  d_pivot <- sub2 gt_pivot pivot ;;
  let err_angle := _rotation_angle d_rot in
  norm <- np_norm ;;
  err_trans <- norm d_trans ;;
  norm <- np_norm ;;
  err_pivot <- norm (Rank2d d_pivot) ;;
  norm <- np_norm ;;
  gt_norm <- norm (Rank2d gt_trans) ;;
  err_rel_trans <- broadcast_zip (fun a b => Ok (fdiv (Fin a) (Fin b)))
                     err_trans gt_norm ;;
  err_rel_angle <- broadcast_zip (fun a b => Ok (fdiv (Fin a) (Fin b)))
                     err_angle (_rotation_angle gt_rot) ;;
  let mean_angle := mean (map Fin err_angle) in
  let mean_trans := mean (map Fin err_trans) in
  let mean_pivot := mean (map Fin err_pivot) in
  rel_angle <- unbound_name "rel_angle" ;;
  let mean_rel_angle := mean rel_angle in
  rel_trans <- unbound_name "rel_trans" ;;
  let mean_rel_trans := mean rel_trans in
  let error_dict := [("mRot", mean_angle); ("mTrans", mean_trans);
                     ("mPivot", mean_pivot); ("mRelRot", mean_rel_angle);
                     ("mRelTrans", mean_rel_trans)]%string in
  Ok (map (fun kv => (fst kv, asscalar (snd kv))) error_dict).

(** ** Box matcher and evaluation entry point (lines 141-158) *)

(** Modelled from the spec: the bounding box collaborator
    [np_box_list.BoxList], an ordered collection that exposes its box count
    and its boxes. *)
Record BoxList : Type := mk_BoxList { get : array2 R }.

Definition num_boxes (b : BoxList) : nat := length (get b).

(** [np.argmax] of a rank-1 array: the first index of the largest entry. *)
Fixpoint argmax_from (best : R) (best_i i : nat) (row : list R) : nat :=
  match row with
  | [] => best_i
  | v :: t =>
      if Rlt_dec best v then argmax_from v i (S i) t
      else argmax_from best best_i (S i) t
  end.

Definition argmax (row : list R) : result nat :=
  match row with
  | [] => Raise (ValueError "attempt to get argmax of an empty sequence")
  | v :: t => Ok (argmax_from v 0%nat 1%nat t)
  end.

(** [np.stack(arrays, axis=0)] *)
Definition stack0 {A : Type} (arrays : list A) : result (list A) :=
  match arrays with
  | [] => Raise (ValueError "need at least one array to stack")
  | _ => Ok arrays
  end.

Section Evaluate.
(** [np_box_list_ops.iou], the IoU collaborator: entry [[i, j]] of its
    result is the IoU of box [i] of the first list and box [j] of the
    second. *)
Variable np_box_list_ops_iou : BoxList -> BoxList -> array2 R.

(** The body of the loop over [i] (lines 152-155); the state is
    [(pred_list, target_list)]. *)
Definition match_update (iou : array2 R) (max_overlap_gt_ids : list nat)
  (gt_boxes detected_motions : array2 R) (matching_iou_threshold : R)
  (lists : list (list R) * list (list R)) (i : nat)
  : result (list (list R) * list (list R)) :=
  let '(pred_list, target_list) := lists in
  gt_id <- index max_overlap_gt_ids i ;;
  iou_row <- index iou i ;;
  overlap <- index iou_row gt_id ;;
  if Rge_dec overlap matching_iou_threshold
  then
    p <- index detected_motions i ;;
    t <- index gt_boxes gt_id ;;
    Ok (pred_list ++ [p], target_list ++ [t])
  else Ok (pred_list, target_list).

(** Lines 147-155: the lists [pred_list] and [target_list]. *)
Definition matching (iou : array2 R) (gt_boxes detected_motions : array2 R)
  (num_detected : nat) (matching_iou_threshold : R)
  : result (list (list R) * list (list R)) :=
  max_overlap_gt_ids <- mapM argmax iou ;;
  foldM (match_update iou max_overlap_gt_ids gt_boxes detected_motions
           matching_iou_threshold)
        (seq 0 num_detected) ([], []).

(** Lines 143-157: the arrays [pred] and [target] handed to
    [_motion_errors]. *)
Definition evaluate_matched (gt_boxes gt_motions detected_boxes
  detected_motions : array2 R) (matching_iou_threshold : R)
  : result (array2 R * array2 R) :=
  let gt_boxlist := mk_BoxList gt_boxes in
  let detected_boxlist := mk_BoxList detected_boxes in
  let iou := np_box_list_ops_iou detected_boxlist gt_boxlist in
  '(pred_list, target_list) <-
    matching iou gt_boxes detected_motions (num_boxes detected_boxlist)
      matching_iou_threshold ;;
  pred <- stack0 pred_list ;;
  target <- stack0 target_list ;;
  Ok (pred, target).

Definition evaluate (gt_boxes gt_motions detected_boxes detected_motions
  : array2 R) (matching_iou_threshold : R) : result error_report :=
  '(pred, target) <- evaluate_matched gt_boxes gt_motions detected_boxes
                       detected_motions matching_iou_threshold ;;
  _motion_errors pred target.
End Evaluate.

(** ** Shapes, entries and the inputs named by the specification *)

(** [has_shape3 n h w a]: [a] is an [[n, h, w]] array. *)
Definition has_shape3 {A : Type} (n h w : nat) (a : array3 A) : Prop :=
  length a = n /\ Forall (has_shape h w) a.

(** Entry [[i, j]] of a rank-2 array, when both indices are in range. *)
Definition grid_get {A : Type} (g : array2 A) (i j : nat) : option A :=
  match nth_error g i with
  | Some row => nth_error row j
  | None => None
  end.

Definition entry (m : array2 R) (i j : nat) : R := nth j (nth i m []) 0.

(** An [[h, w, 2]] array, with its trailing axis as a list. *)
Definition channels2 {A : Type} (a : array2 (A * A)) : array3 A :=
  grid_map (fun p => [fst p; snd p]) a.

(** Identity rotation, zero translation, zero pivot. *)
Definition identity_motion : list R :=
  [1; 0; 0; 0; 1; 0; 0; 0; 1; 0; 0; 0; 0; 0; 0].

Definition identity_camera_motion : list R :=
  [1; 0; 0; 0; 1; 0; 0; 0; 1; 0; 0; 0].

(** Two motions for examples: a translation by [(1, 0, 0)] and a quarter
    turn about the Z axis. *)
Definition shift_x : list R := [1; 0; 0; 0; 1; 0; 0; 0; 1; 1; 0; 0; 0; 0; 0].
Definition turn_z : list R := [0; -1; 0; 1; 0; 0; 0; 0; 1; 0; 0; 0; 0; 0; 0].

(** The three blocks of a 15-value motion vector: rotation (row-major),
    translation, pivot. *)
Definition rotation_of (motion : list R) : m3 R :=
  ((nth 0 motion 0, nth 1 motion 0, nth 2 motion 0),
   (nth 3 motion 0, nth 4 motion 0, nth 5 motion 0),
   (nth 6 motion 0, nth 7 motion 0, nth 8 motion 0)).

Definition translation_of (motion : list R) : v3 R :=
  (nth 9 motion 0, nth 10 motion 0, nth 11 motion 0).

Definition pivot_of (motion : list R) : v3 R :=
  (nth 12 motion 0, nth 13 motion 0, nth 14 motion 0).

(** ** The object loop in the words of the specification (4.3, step 3) *)

(** [P' = (P - c) . R^T + c + t] at one point. *)
Definition rigid_transform (rot : mat3) (t c p : vec3) : vec3 :=
  vadd fadd (vadd fadd (vec_mat fadd fmul (vsub fsub p c) (transpose rot)) c) t.

(** [P <- P + mask * (P' - P)] at one point. *)
Definition blend (m : npfloat) (p p' : vec3) : vec3 :=
  vadd fadd p (vscale fmul m (vsub fsub p' p)).

Definition spec_object_step (P : array2 vec3) (object : list R * array2 R)
  : array2 vec3 :=
  let '(motion, mask) := object in
  let rot := mat3_of (rotation_of motion) in
  let t := vec3_of (translation_of motion) in
  let c := vec3_of (pivot_of motion) in
  grid_map2 (fun m p => blend (Fin m) p (rigid_transform rot t c p)) mask P.

(** Objects in index order, each on the field the previous ones left. *)
Definition spec_apply_objects (motions : array2 R) (masks : array3 R)
  (P : array2 vec3) : array2 vec3 :=
  fold_left spec_object_step (combine motions masks) P.

(** ** The box matcher in the words of the specification (4.4) *)

(** [j] is the argmax of [row], ties broken by the lowest index. *)
Definition is_first_argmax (row : list R) (j : nat) : Prop :=
  (j < length row)%nat /\
  (forall k, (k < length row)%nat -> nth k row 0 <= nth j row 0) /\
  (forall k, (k < j)%nat -> nth k row 0 < nth j row 0).

(** The pair (detection [i], ground truth [j]) is emitted. *)
Definition survives (iou : array2 R) (threshold : R) (i j : nat) : Prop :=
  (i < length iou)%nat /\
  is_first_argmax (nth i iou []) j /\
  entry iou i j >= threshold.

(** The pairs emitted for the detections [0 .. n-1], in index order. *)
Definition best_gt (row : list R) : nat :=
  argmax_from (hd 0 row) 0%nat 1%nat (tl row).

Definition matched_pairs (iou : array2 R) (threshold : R) (n : nat)
  : list (nat * nat) :=
  flat_map (fun i => let j := best_gt (nth i iou []) in
                     if Rge_dec (entry iou i j) threshold
                     then [(i, j)] else [])
           (seq 0 n).

(** ** The motion errors in the words of the specification (4.5) *)

Definition norm3 (v : v3 R) : R :=
  let '(x, y, z) := v in sqrt (x * x + y * y + z * z).

Definition rotation_angle (m : m3 R) : R :=
  acos (clip ((trace Rplus m - 1) / 2) (-1) 1).

Definition spec_pair_errors (pair : list R * list R)
  : npfloat * npfloat * npfloat * npfloat * npfloat :=
  let '(p, g) := pair in
  let rot_T := transpose (rotation_of p) in
  let angle := rotation_angle (rmatmul rot_T (rotation_of g)) in
  let d_trans :=
    norm3 (mat_vec Rplus Rmult rot_T
             (vsub Rminus (translation_of g) (translation_of p))) in
  let d_pivot := norm3 (vsub Rminus (pivot_of g) (pivot_of p)) in
  (Fin angle, Fin d_trans, Fin d_pivot,
   fdiv (Fin angle) (Fin (rotation_angle (rotation_of g))),
   fdiv (Fin d_trans) (Fin (norm3 (translation_of g)))).

Definition spec_motion_errors (pred target : array2 R) : error_report :=
  let errors := map spec_pair_errors (combine pred target) in
  [("mRot", mean (map (fun e => fst (fst (fst (fst e)))) errors));
   ("mTrans", mean (map (fun e => snd (fst (fst (fst e)))) errors));
   ("mPivot", mean (map (fun e => snd (fst (fst e))) errors));
   ("mRelRot", mean (map (fun e => snd (fst e)) errors));
   ("mRelTrans", mean (map (fun e => snd e) errors))]%string.

(** ** Auxiliary notions for the proofs *)

(** The point field of line 54 for pixel coordinates [xg], [yg] and depths
    [d]: the three results of [_pixels_to_3d], stacked. *)
Definition initial_point_field (xg yg d : array2 R) (f x0 y0 : R)
  : array2 vec3 :=
  stack3
    (grid_map2 fmul (grid_map (fun v => fsub v (Fin x0)) (grid_map Fin xg))
       (grid_map (fun v => fdiv v (Fin f)) (grid_map Fin d)))
    (grid_map2 fmul (grid_map (fun v => fsub v (Fin y0)) (grid_map Fin yg))
       (grid_map (fun v => fdiv v (Fin f)) (grid_map Fin d)))
    (grid_map Fin d).

(** A point with a non-finite coordinate, after any rigid transform: every
    coordinate is non-finite. *)
Definition taint (p : vec3) : vec3 :=
  match p with
  | (Fin _, Fin _, Fin _) => p
  | _ => (NonFinite, NonFinite, NonFinite)
  end.

(** A flow whose two components are not finite at any pixel. *)
Definition non_finite_flow (h w : nat) : array2 (npfloat * npfloat) :=
  repeat (repeat (NonFinite, NonFinite) w) h.

(** ** The flow at one pixel *)

(** Lines 56-61 at one point [p], for an object given by its motion and the
    value [m] of its mask at the pixel of [p]. *)
Definition object_step_at (p : vec3) (object : list R * R) : vec3 :=
  let '(motion, m) := object in
  blend (Fin m) p
    (rigid_transform (mat3_of (rotation_of motion))
       (vec3_of (translation_of motion)) (vec3_of (pivot_of motion)) p).

(** Lines 46-71 at the pixel of row [i] and column [j], from the depth [d]
    and the mask values [ms] at this pixel: back-projection, the objects in
    index order, the camera motion, projection, displacement. *)
Definition flow_at (i j : nat) (d : R) (motions : array2 R) (ms : list R)
  (rot_cam : m3 R) (trans_cam : vec3) (f x0 y0 : R) : npfloat * npfloat :=
  let x := Fin (INR j) in
  let y := Fin (INR i) in
  let factor := fdiv (Fin d) (Fin f) in
  let p := (fmul (fsub x (Fin x0)) factor, fmul (fsub y (Fin y0)) factor,
            Fin d) in
  let p := fold_left object_step_at (combine motions ms) p in
  let q := vadd fadd (vec_mat fadd fmul p (transpose (mat3_of rot_cam)))
             trans_cam in
  (fsub (fadd (fdiv (fmul (Fin f) (fst (fst q))) (snd q)) (Fin x0)) x,
   fsub (fadd (fdiv (fmul (Fin f) (snd (fst q))) (snd q)) (Fin y0)) y).

(** ** One pixel, in any arithmetic (lines 12-28 and 46-71) *)

(** NumPy applies each operation of these lines element by element.  What
    they compute for one pixel is written here once, over any element type
    with the four operations and the conversion of a pixel index
    ([np.linspace(0, w - 1, w)] holds the indices themselves). *)
Record arithmetic (F : Type) : Type := mk_arithmetic {
  add_in : F -> F -> F;
  sub_in : F -> F -> F;
  mul_in : F -> F -> F;
  div_in : F -> F -> F;
  index_in : nat -> F
}.

Arguments mk_arithmetic {F} add_in sub_in mul_in div_in index_in.
Arguments add_in {F} a x y.
Arguments sub_in {F} a x y.
Arguments mul_in {F} a x y.
Arguments div_in {F} a x y.
Arguments index_in {F} a n.

Section OnePixel.
Context {F : Type} (ar : arithmetic F).

(** Lines 12-18. *)
Definition _pixels_to_3d_at (x y d : F) (camera_intrinsics : F * F * F)
  : v3 F :=
  let '(f, x0, y0) := camera_intrinsics in
  let factor := div_in ar d f in
  let X := mul_in ar (sub_in ar x x0) factor in
  let Y := mul_in ar (sub_in ar y y0) factor in
  let Z := d in
  (X, Y, Z).

(** Lines 21-28. *)
Definition _3d_to_pixels_at (point : v3 F) (camera_intrinsics : F * F * F)
  : F * F :=
  let '(f, x0, y0) := camera_intrinsics in
  let '(X, Y, Z) := point in
  let x := add_in ar (div_in ar (mul_in ar f X) Z) x0 in
  let y := add_in ar (div_in ar (mul_in ar f Y) Z) y0 in
  (x, y).

(** Projection of the back-projected pixel. *)
Definition round_trip_at (x y d : F) (camera_intrinsics : F * F * F) : F * F :=
  _3d_to_pixels_at (_pixels_to_3d_at x y d camera_intrinsics)
    camera_intrinsics.

(** An object at one pixel: rotation, translation, pivot, and the value of
    its mask there. *)
Definition object_at : Type := (m3 F * v3 F * v3 F * F)%type.

(** Line 61, the term the mask multiplies:
    [(P - pivot).dot(rot.T) + pivot + trans - P]. *)
Definition displacement_at (P : v3 F) (rot : m3 F) (trans pivot : v3 F)
  : v3 F :=
  vsub (sub_in ar)
    (vadd (add_in ar)
       (vadd (add_in ar)
          (vec_mat (add_in ar) (mul_in ar) (vsub (sub_in ar) P pivot)
             (transpose rot))
          pivot)
       trans)
    P.

(** Line 61: [P += mask * (...)]. *)
Definition move_at (P : v3 F) (object : object_at) : v3 F :=
  let '(rot, trans, pivot, mask) := object in
  vadd (add_in ar) P
    (vscale (mul_in ar) mask (displacement_at P rot trans pivot)).

(** Line 65. *)
Definition camera_at (P : v3 F) (rot_cam : m3 F) (trans_cam : v3 F) : v3 F :=
  vadd (add_in ar) (vec_mat (add_in ar) (mul_in ar) P (transpose rot_cam))
    trans_cam.

(** Lines 46-70 for the pixel of row [i] and column [j]: its entry of
    [flow], before the conversion of line 71. *)
Definition pixel_flow (i j : nat) (d : F) (objects : list object_at)
  (rot_cam : m3 F) (trans_cam : v3 F) (camera_intrinsics : F * F * F)
  : F * F :=
  let x := index_in ar j in
  let y := index_in ar i in
  let P := _pixels_to_3d_at x y d camera_intrinsics in
  let P := fold_left move_at objects P in
  let P := camera_at P rot_cam trans_cam in
  let '(x_t, y_t) := _3d_to_pixels_at P camera_intrinsics in
  (sub_in ar x_t x, sub_in ar y_t y).
End OnePixel.

(** The arithmetic of the array model: exact on finite values. *)
Definition exact_arithmetic : arithmetic npfloat :=
  mk_arithmetic fadd fsub fmul fdiv (fun n => Fin (INR n)).

(** The objects of the array model at the pixel where their masks have the
    values [ms]. *)
Definition objects_at_pixel (motions : array2 R) (ms : list R)
  : list (@object_at npfloat) :=
  map (fun object : list R * R =>
         (mat3_of (rotation_of (fst object)),
          vec3_of (translation_of (fst object)),
          vec3_of (pivot_of (fst object)),
          Fin (snd object)))
      (combine motions ms).

(** ** Binary64 arithmetic *)

(** The arithmetic of arrays of dtype [float64], the dtype of [x] and [y]
    (from [np.linspace]) and NumPy's default: IEEE 754 binary64 with rounding
    to nearest, ties to even, as Rocq's primitive floats have it. *)
Definition binary64 : arithmetic PrimFloat.float :=
  mk_arithmetic PrimFloat.add PrimFloat.sub PrimFloat.mul PrimFloat.div
    (fun n => PrimFloat.of_uint63 (Uint63.of_Z (Z.of_nat n))).

(** The binary64 value of an integer (exact below [2^53]). *)
Definition float_of_Z (z : Z) : PrimFloat.float :=
  match z with
  | Zneg p => PrimFloat.opp (PrimFloat.of_uint63 (Uint63.of_Z (Zpos p)))
  | _ => PrimFloat.of_uint63 (Uint63.of_Z z)
  end.

(** Line 71, [astype(np.float32)], on one entry: the binary32 value nearest
    to a binary64 value (an infinity on overflow). *)
Definition astype_float32 (x : PrimFloat.float) : spec_float :=
  match Prim2SF x with
  | S754_finite s m e => binary_round 24 128 s m e
  | v => v
  end.

(** Lines 46-71 for the pixel of row [i] and column [j], on [float64]
    arrays: its entry of the returned [float32] array. *)
Definition flow32_at (i j : nat) (d : PrimFloat.float)
  (objects : list (@object_at PrimFloat.float))
  (rot_cam : m3 PrimFloat.float) (trans_cam : v3 PrimFloat.float)
  (camera_intrinsics : PrimFloat.float * PrimFloat.float * PrimFloat.float)
  : spec_float * spec_float :=
  let '(u, v) := pixel_flow binary64 i j d objects rot_cam trans_cam
                   camera_intrinsics in
  (astype_float32 u, astype_float32 v).

Definition sf_is_zero (x : spec_float) : bool :=
  match x with
  | S754_zero _ => true
  | _ => false
  end.


Definition sf_is_finite (x : spec_float) : bool :=
  match x with
  | S754_zero _ | S754_finite _ _ _ => true
  | _ => false
  end.

Definition is_zero64 (x : PrimFloat.float) : bool := sf_is_zero (Prim2SF x).


(** Neither an infinity nor a NaN. *)
Definition is_finite64 (x : PrimFloat.float) : bool :=
  sf_is_finite (Prim2SF x).

Definition finite_point64 (p : v3 PrimFloat.float) : Prop :=
  let '(a, b, c) := p in
  is_finite64 a = true /\ is_finite64 b = true /\ is_finite64 c = true.


(** The same float, or two zeros (of either sign). *)
Definition sf_same (a b : spec_float) : Prop :=
  a = b \/ (sf_is_zero a = true /\ sf_is_zero b = true).

Definition same_number (a b : PrimFloat.float) : Prop :=
  a = b \/ (is_zero64 a = true /\ is_zero64 b = true).

Definition same_point (p q : v3 PrimFloat.float) : Prop :=
  let '(a, b, c) := p in
  let '(x, y, z) := q in
  same_number a x /\ same_number b y /\ same_number c z.




(** The identity rotation, the zero vector, and the object of zero motion
    with mask value [m]. *)
Definition identity64 : m3 PrimFloat.float :=
  ((PrimFloat.one, PrimFloat.zero, PrimFloat.zero),
   (PrimFloat.zero, PrimFloat.one, PrimFloat.zero),
   (PrimFloat.zero, PrimFloat.zero, PrimFloat.one)).

Definition zero64 : v3 PrimFloat.float :=
  (PrimFloat.zero, PrimFloat.zero, PrimFloat.zero).

Definition still_object (m : PrimFloat.float) : @object_at PrimFloat.float :=
  (identity64, zero64, zero64, m).

(** * Properties *)

(** ** Lists, grids and the result monad *)

Lemma mapM_ok {A B : Type} (f : A -> result B) (g : A -> B) (l : list A) :
  (forall a, In a l -> f a = Ok (g a)) -> mapM f l = Ok (map g l).
Proof.
  induction l as [|a l IH]; intros Hf; simpl.
  - reflexivity.
  - rewrite (Hf a (or_introl eq_refl)). simpl.
    rewrite IH by (intros b Hb; apply Hf; right; exact Hb).
    reflexivity.
Qed.

Lemma map2_combine {A B C : Type} (f : A -> B -> C) l1 l2 :
  map2 f l1 l2 = map (fun ab => f (fst ab) (snd ab)) (combine l1 l2).
Proof.
  revert l2; induction l1 as [|a l1 IH]; intros [|b l2]; simpl; try reflexivity.
  now rewrite IH.
Qed.

Lemma length_map2 {A B C : Type} (f : A -> B -> C) l1 l2 :
  length l1 = length l2 -> length (map2 f l1 l2) = length l1.
Proof.
  revert l2; induction l1 as [|a l1 IH]; intros [|b l2] H; simpl in *;
    try discriminate; try reflexivity.
  f_equal. apply IH. now injection H.
Qed.

Lemma map2_ext_in {A B C : Type} (f g : A -> B -> C) l1 l2 :
  (forall a b, In a l1 -> In b l2 -> f a b = g a b) ->
  map2 f l1 l2 = map2 g l1 l2.
Proof.
  revert l2; induction l1 as [|a l1 IH]; intros [|b l2] H; simpl; try reflexivity.
  f_equal.
  - apply H; now left.
  - apply IH. intros; apply H; now right.
Qed.

Lemma map2_map_l {A A' B C : Type} (f : A' -> B -> C) (g : A -> A') l1 l2 :
  map2 f (map g l1) l2 = map2 (fun a b => f (g a) b) l1 l2.
Proof.
  revert l2; induction l1 as [|a l1 IH]; intros [|b l2]; simpl; try reflexivity.
  now rewrite IH.
Qed.

Lemma map2_map_r {A B B' C : Type} (f : A -> B' -> C) (g : B -> B') l1 l2 :
  map2 f l1 (map g l2) = map2 (fun a b => f a (g b)) l1 l2.
Proof.
  revert l2; induction l1 as [|a l1 IH]; intros [|b l2]; simpl; try reflexivity.
  now rewrite IH.
Qed.

(** The shape of the in-place update: the target is paired with a value
    computed from a mask and from the target itself. *)
Lemma map2_update_fuse {A M D : Type} (f : A -> D -> A) (g : M -> D -> D)
  (e : A -> D) (m : list M) (P : list A) :
  map2 f P (map2 g m (map e P)) = map2 (fun mv p => f p (g mv (e p))) m P.
Proof.
  revert m; induction P as [|p P IH]; intros [|mv m]; simpl; try reflexivity.
  now rewrite IH.
Qed.

Lemma broadcast_zip_same {A B C : Type} (f : A -> B -> result C)
  (g : A -> B -> C) l1 l2 :
  length l1 = length l2 ->
  (forall a b, In a l1 -> In b l2 -> f a b = Ok (g a b)) ->
  broadcast_zip f l1 l2 = Ok (map2 g l1 l2).
Proof.
  intros Hlen Hf. unfold broadcast_zip.
  rewrite Hlen, Nat.eqb_refl, map2_combine.
  apply mapM_ok. intros [a b] Hab; simpl.
  apply Hf; [eapply in_combine_l | eapply in_combine_r]; exact Hab.
Qed.

Lemma broadcast_into_same {A B : Type} (f : A -> B -> result A)
  (g : A -> B -> A) out arg :
  length arg = length out ->
  (forall a b, In a out -> In b arg -> f a b = Ok (g a b)) ->
  broadcast_into f out arg = Ok (map2 g out arg).
Proof.
  intros Hlen Hf. unfold broadcast_into.
  rewrite Hlen, Nat.eqb_refl, map2_combine.
  apply mapM_ok. intros [a b] Hab; simpl.
  apply Hf; [eapply in_combine_l | eapply in_combine_r]; exact Hab.
Qed.

Lemma has_shape_row {A : Type} (h w : nat) (g : array2 A) (row : list A) :
  has_shape h w g -> In row g -> length row = w.
Proof.
  intros [_ Hrows] Hin. rewrite Forall_forall in Hrows. now apply Hrows.
Qed.

Lemma has_shape_grid_map {A B : Type} (f : A -> B) h w (g : array2 A) :
  has_shape h w g -> has_shape h w (grid_map f g).
Proof.
  intros [Hh Hw]. split.
  - unfold grid_map. now rewrite length_map.
  - unfold grid_map. apply Forall_map.
    eapply Forall_impl; [|exact Hw]. intros row Hrow; simpl.
    now rewrite length_map.
Qed.

Lemma has_shape_grid_map2 {A B C : Type} (f : A -> B -> C) h w
  (a : array2 A) (b : array2 B) :
  has_shape h w a -> has_shape h w b -> has_shape h w (grid_map2 f a b).
Proof.
  intros [Ha Hra] [Hb Hrb]. split.
  - unfold grid_map2. rewrite length_map2; congruence.
  - unfold grid_map2. rewrite map2_combine. apply Forall_map.
    apply Forall_forall. intros [ra rb] Hin; simpl.
    rewrite Forall_forall in Hra, Hrb.
    rewrite length_map2.
    + apply Hra. eapply in_combine_l; exact Hin.
    + rewrite (Hra ra), (Hrb rb); try reflexivity;
        [eapply in_combine_r | eapply in_combine_l]; exact Hin.
Qed.

Lemma grid_map_map {A B C : Type} (f : B -> C) (g : A -> B) (a : array2 A) :
  grid_map f (grid_map g a) = grid_map (fun v => f (g v)) a.
Proof.
  unfold grid_map. rewrite map_map. apply map_ext. intros row. apply map_map.
Qed.

Lemma grid_map2_map_l {A A' B C : Type} (f : A' -> B -> C) (g : A -> A')
  (a : array2 A) (b : array2 B) :
  grid_map2 f (grid_map g a) b = grid_map2 (fun x y => f (g x) y) a b.
Proof.
  unfold grid_map2, grid_map. rewrite map2_map_l.
  apply map2_ext_in. intros; apply map2_map_l.
Qed.

Lemma grid_update_fuse {A M D : Type} (f : A -> D -> A) (g : M -> D -> D)
  (e : A -> D) (m : array2 M) (P : array2 A) :
  grid_map2 f P (grid_map2 g m (grid_map e P))
  = grid_map2 (fun mv p => f p (g mv (e p))) m P.
Proof.
  unfold grid_map2, grid_map. rewrite map2_update_fuse.
  apply map2_ext_in. intros; apply map2_update_fuse.
Qed.

Lemma mul_mask_same h w (mask : array2 npfloat) (e : array2 vec3) :
  has_shape h w mask -> has_shape h w e ->
  mul_mask mask e = Ok (grid_map2 (vscale fmul) mask e).
Proof.
  intros Hm He. unfold mul_mask, grid_map2.
  apply broadcast_zip_same.
  - destruct Hm, He; congruence.
  - intros mrow erow Hmr Her. apply broadcast_zip_same.
    + rewrite (has_shape_row _ _ _ _ Hm Hmr), (has_shape_row _ _ _ _ He Her).
      reflexivity.
    + reflexivity.
Qed.

Lemma iadd_same h w (P d : array2 vec3) :
  has_shape h w P -> has_shape h w d ->
  iadd P d = Ok (grid_map2 (vadd fadd) P d).
Proof.
  intros HP Hd. unfold iadd, grid_map2.
  apply broadcast_into_same.
  - destruct HP, Hd; congruence.
  - intros prow drow Hpr Hdr. apply broadcast_into_same.
    + rewrite (has_shape_row _ _ _ _ HP Hpr), (has_shape_row _ _ _ _ Hd Hdr).
      reflexivity.
    + reflexivity.
Qed.

Lemma map2_diag {A B C : Type} (f : B -> A -> C) (g : A -> B) (l : list A) :
  map2 f (map g l) l = map (fun x => f (g x) x) l.
Proof.
  induction l as [|a l IH]; simpl; [reflexivity | now rewrite IH].
Qed.

Lemma grid_map2_diag {A B C : Type} (f : B -> A -> C) (g : A -> B)
  (a : array2 A) :
  grid_map2 f (grid_map g a) a = grid_map (fun x => f (g x) x) a.
Proof.
  unfold grid_map2, grid_map. rewrite map2_diag.
  apply map_ext. intros row. apply map2_diag.
Qed.

(** ** The object loop *)

Ltac destruct_motion mo Hlen :=
  destruct mo as [|? [|? [|? [|? [|? [|? [|? [|? [|? [|? [|? [|? [|? [|? [|?
    [|? ?]]]]]]]]]]]]]]]]; simpl in Hlen; try (exfalso; lia).

Lemma object_update_closed motions masks P i mo m h w :
  nth_error motions i = Some mo -> length mo = 15%nat ->
  nth_error masks i = Some m -> has_shape h w m -> has_shape h w P ->
  object_update motions masks P i = Ok (spec_object_step P (mo, m)).
Proof.
  intros Hmo Hlen Hm Hsm HsP.
  unfold object_update, index. rewrite Hmo.
  destruct_motion mo Hlen. simpl. rewrite Hm. simpl.
  unfold expand_dims.
  erewrite mul_mask_same;
    [| apply has_shape_grid_map; exact Hsm
     | unfold sub_arr, add_vec, dot, sub_vec;
       apply has_shape_grid_map2; [repeat apply has_shape_grid_map|]; exact HsP].
  simpl.
  erewrite iadd_same;
    [| exact HsP
     | apply has_shape_grid_map2;
       [ apply has_shape_grid_map; exact Hsm
       | unfold sub_arr, add_vec, dot, sub_vec;
         apply has_shape_grid_map2; [repeat apply has_shape_grid_map|]; exact HsP]].
  f_equal.
  unfold sub_arr, add_vec, dot, sub_vec.
  rewrite !grid_map_map, grid_map2_diag, grid_map2_map_l, grid_update_fuse.
  reflexivity.
Qed.

Lemma has_shape_spec_object_step h w P mo m :
  has_shape h w m -> has_shape h w P ->
  has_shape h w (spec_object_step P (mo, m)).
Proof.
  intros Hm HP. unfold spec_object_step. now apply has_shape_grid_map2.
Qed.

Lemma apply_objects_from pre_mo pre_ma h w :
  length pre_mo = length pre_ma ->
  forall mos mas P,
    length mos = length mas ->
    Forall (fun mo => length mo = 15%nat) mos ->
    Forall (has_shape h w) mas ->
    has_shape h w P ->
    foldM (object_update (pre_mo ++ mos) (pre_ma ++ mas))
      (seq (length pre_mo) (length mos)) P
    = Ok (fold_left spec_object_step (combine mos mas) P).
Proof.
  intros Hpre mos. revert pre_mo pre_ma Hpre.
  induction mos as [|mo mos IH]; intros pre_mo pre_ma Hpre [|ma mas] P Hlen Hmos Hmas HP;
    simpl in Hlen; try discriminate.
  - reflexivity.
  - inversion Hmos as [|? ? Hmo Hmos']; subst.
    inversion Hmas as [|? ? Hma Hmas']; subst.
    simpl.
    rewrite (object_update_closed _ _ _ _ mo ma h w); trivial.
    + simpl.
      replace (pre_mo ++ mo :: mos) with ((pre_mo ++ [mo]) ++ mos)
        by (rewrite <- app_assoc; reflexivity).
      replace (pre_ma ++ ma :: mas) with ((pre_ma ++ [ma]) ++ mas)
        by (rewrite <- app_assoc; reflexivity).
      replace (S (length pre_mo)) with (length (pre_mo ++ [mo]))
        by (rewrite length_app; simpl; lia).
      apply IH; trivial.
      * rewrite !length_app; simpl; lia.
      * now injection Hlen.
      * now apply has_shape_spec_object_step.
    + rewrite nth_error_app2, Nat.sub_diag by lia. reflexivity.
    + rewrite Hpre, nth_error_app2, Nat.sub_diag by lia. reflexivity.
Qed.

Lemma apply_objects_closed h w motions masks P :
  length motions = length masks ->
  Forall (fun mo => length mo = 15%nat) motions ->
  Forall (has_shape h w) masks ->
  has_shape h w P ->
  apply_objects motions masks P = Ok (spec_apply_objects motions masks P).
Proof.
  intros. unfold apply_objects, spec_apply_objects.
  now apply (apply_objects_from [] [] h w).
Qed.

Lemma has_shape_spec_apply_objects h w motions masks P :
  Forall (has_shape h w) masks -> has_shape h w P ->
  has_shape h w (spec_apply_objects motions masks P).
Proof.
  unfold spec_apply_objects.
  revert masks P. induction motions as [|mo mos IH]; intros [|ma mas] P Hm HP;
    simpl; trivial.
  inversion Hm; subst.
  apply IH; trivial. now apply has_shape_spec_object_step.
Qed.

(** ** Entries of grids *)

Lemma grid_get_map {A B : Type} (f : A -> B) (g : array2 A) i j :
  grid_get (grid_map f g) i j = option_map f (grid_get g i j).
Proof.
  unfold grid_get, grid_map. rewrite nth_error_map.
  destruct (nth_error g i) as [row|]; simpl; [|reflexivity].
  apply nth_error_map.
Qed.

Lemma nth_error_map2 {A B C : Type} (f : A -> B -> C) l1 l2 i :
  nth_error (map2 f l1 l2) i
  = match nth_error l1 i, nth_error l2 i with
    | Some a, Some b => Some (f a b)
    | _, _ => None
    end.
Proof.
  revert l2 i; induction l1 as [|a l1 IH]; intros [|b l2] [|i]; simpl;
    try reflexivity.
  - now destruct (nth_error l1 i).
  - apply IH.
Qed.

Lemma grid_get_map2 {A B C : Type} (f : A -> B -> C) a b i j :
  grid_get (grid_map2 f a b) i j
  = match grid_get a i j, grid_get b i j with
    | Some x, Some y => Some (f x y)
    | _, _ => None
    end.
Proof.
  unfold grid_get, grid_map2. rewrite nth_error_map2.
  destruct (nth_error a i) as [ra|], (nth_error b i) as [rb|]; simpl;
    try reflexivity.
  - apply nth_error_map2.
  - now destruct (nth_error ra j).
Qed.

Lemma list_ext_nth_error {A : Type} (l l' : list A) :
  length l = length l' ->
  (forall i, (i < length l)%nat -> nth_error l i = nth_error l' i) ->
  l = l'.
Proof.
  revert l'; induction l as [|a l IH]; intros [|b l'] Hlen H; simpl in Hlen;
    try discriminate; trivial.
  f_equal.
  - specialize (H 0%nat). simpl in H. injection H; trivial. lia.
  - apply IH; [now injection Hlen|].
    intros i Hi. apply (H (S i)). simpl. lia.
Qed.

Lemma grid_ext {A : Type} h w (a b : array2 A) :
  has_shape h w a -> has_shape h w b ->
  (forall i j, (i < h)%nat -> (j < w)%nat -> grid_get a i j = grid_get b i j) ->
  a = b.
Proof.
  intros [Ha Hra] [Hb Hrb] H.
  apply list_ext_nth_error; [congruence|].
  intros i Hi.
  destruct (nth_error a i) as [ra|] eqn:Era;
    [|apply nth_error_None in Era; lia].
  destruct (nth_error b i) as [rb|] eqn:Erb;
    [|apply nth_error_None in Erb; lia].
  f_equal.
  rewrite Forall_forall in Hra, Hrb.
  pose proof (Hra ra (nth_error_In _ _ Era)) as Hla.
  pose proof (Hrb rb (nth_error_In _ _ Erb)) as Hlb.
  apply list_ext_nth_error; [congruence|].
  intros j Hj. specialize (H i j). unfold grid_get in H.
  rewrite Era, Erb in H. apply H; lia.
Qed.

Lemma grid_get_some {A : Type} h w (g : array2 A) i j :
  has_shape h w g -> (i < h)%nat -> (j < w)%nat ->
  exists v, grid_get g i j = Some v.
Proof.
  intros [Hh Hw] Hi Hj. unfold grid_get.
  destruct (nth_error g i) as [row|] eqn:Erow;
    [|apply nth_error_None in Erow; lia].
  rewrite Forall_forall in Hw.
  pose proof (Hw row (nth_error_In _ _ Erow)) as Hlen.
  destruct (nth_error row j) as [v|] eqn:Ev;
    [now exists v | apply nth_error_None in Ev; lia].
Qed.

(** ** Pixel grid and back-projection *)

Ltac grid_shapes :=
  repeat first [ assumption
               | apply has_shape_grid_map
               | apply has_shape_grid_map2 ].

Ltac grid_gets := repeat (rewrite grid_get_map2 || rewrite grid_get_map).

Lemma first_channel_rank3 h w (a : array3 R) :
  has_shape3 h w 1 a -> first_channel (Rank3 a) = Ok (grid_map (hd 0) a).
Proof.
  intros [_ Hrows]. simpl. unfold grid_map.
  apply mapM_ok. intros row Hrow.
  rewrite Forall_forall in Hrows. destruct (Hrows row Hrow) as [_ Hpx].
  apply mapM_ok. intros px Hin.
  rewrite Forall_forall in Hpx. specialize (Hpx px Hin).
  destruct px as [|v px]; [discriminate | reflexivity].
Qed.

Lemma has_shape_first_channel h w (a : array3 R) :
  has_shape3 h w 1 a -> has_shape h w (grid_map (hd 0) a).
Proof.
  intros [Hh Hrows]. split.
  - unfold grid_map. now rewrite length_map.
  - unfold grid_map. apply Forall_map.
    eapply Forall_impl; [|exact Hrows].
    intros row [Hw _]; simpl. now rewrite length_map.
Qed.

Lemma length_linspace start stop num : length (linspace start stop num) = num.
Proof. unfold linspace. now rewrite length_map, length_seq. Qed.

(** The samples of [np.linspace(0, w - 1, w)] are the pixel indices. *)
Lemma linspace_pixels w : linspace 0 (INR w - 1) w = map INR (seq 0 w).
Proof.
  unfold linspace. apply map_ext_in. intros i Hi.
  apply in_seq in Hi.
  destruct w as [|[|w]]; try lia.
  - assert (i = 0%nat) by lia. subst. simpl.
    now rewrite Rmult_0_l, Rplus_0_l.
  - replace (INR (S (S w)) - 1 - 0) with (INR (S (S w) - 1)).
    + field. apply not_0_INR. lia.
    + rewrite minus_INR by lia. change (INR 1) with 1. ring.
Qed.

Lemma meshgrid_map {A B : Type} (f : A -> B) xr yr :
  meshgrid (map f xr) (map f yr)
  = (grid_map f (fst (meshgrid xr yr)), grid_map f (snd (meshgrid xr yr))).
Proof.
  unfold meshgrid, grid_map; simpl. rewrite !map_map. f_equal.
  apply map_ext. intros yv. now rewrite !map_map.
Qed.

Lemma has_shape_meshgrid {A : Type} (xr yr : list A) :
  has_shape (length yr) (length xr) (fst (meshgrid xr yr)) /\
  has_shape (length yr) (length xr) (snd (meshgrid xr yr)).
Proof.
  unfold meshgrid, has_shape; simpl. rewrite !length_map.
  repeat split; trivial; apply Forall_map, Forall_forall; intros yv _; trivial.
  now rewrite length_map.
Qed.

Lemma has_shape_nil {A : Type} w : has_shape 0 w (@nil (list A)).
Proof. split; [reflexivity | constructor]. Qed.

Lemma pixel_points_closed h w (a : array3 R) intr :
  has_shape3 h w 1 a ->
  exists xg yg : array2 R,
    has_shape h w xg /\ has_shape h w yg /\
    pixel_points (Rank3 a) intr
    = ('(X, Y, Z) <- _pixels_to_3d (grid_map Fin xg) (grid_map Fin yg)
                       (grid_map Fin (grid_map (hd 0) a)) intr ;;
       Ok (stack2 (grid_map Fin xg) (grid_map Fin yg), stack3 X Y Z)).
Proof.
  intros Ha.
  set (xr := linspace 0 (INR (length (hd [] a)) - 1) (length (hd [] a))).
  set (yr := linspace 0 (INR (length a) - 1) (length a)).
  exists (fst (meshgrid xr yr)), (snd (meshgrid xr yr)).
  assert (Hshape : has_shape h w (fst (meshgrid xr yr)) /\
                   has_shape h w (snd (meshgrid xr yr))).
  { destruct Ha as [Hh Hrows].
    destruct a as [|row a].
    - simpl in Hh. subst h. simpl. split; apply has_shape_nil.
    - inversion Hrows as [|? ? [Hw _] _]; subst.
      pose proof (has_shape_meshgrid xr yr) as Hm.
      assert (Hlx : length xr = length row) by apply length_linspace.
      assert (Hly : length yr = length (row :: a)) by apply length_linspace.
      rewrite Hlx, Hly in Hm. exact Hm. }
  destruct Hshape as [Hx Hy]. split; [exact Hx | split; [exact Hy |]].
  unfold pixel_points. cbn [shape_hw].
  rewrite (first_channel_rank3 h w a Ha). cbn [bind].
  fold xr yr. rewrite meshgrid_map. reflexivity.
Qed.

Lemma _pixels_to_3d_intrinsics x y d f x0 y0 :
  _pixels_to_3d x y d [f; x0; y0]
  = Ok (grid_map2 fmul (grid_map (fun v => fsub v (Fin x0)) x)
          (grid_map (fun v => fdiv v (Fin f)) d),
        grid_map2 fmul (grid_map (fun v => fsub v (Fin y0)) y)
          (grid_map (fun v => fdiv v (Fin f)) d),
        d).
Proof. reflexivity. Qed.

Lemma has_shape_stack3 {A : Type} h w (a b c : array2 A) :
  has_shape h w a -> has_shape h w b -> has_shape h w c ->
  has_shape h w (stack3 a b c).
Proof. intros. unfold stack3. grid_shapes. Qed.

Lemma has_shape_stack2 {A : Type} h w (a b : array2 A) :
  has_shape h w a -> has_shape h w b -> has_shape h w (stack2 a b).
Proof. intros. unfold stack2. grid_shapes. Qed.

(** Decides the comparisons of concrete reals that an evaluation meets. *)
Ltac decide_reals :=
  repeat match goal with
         | |- context [Req_dec_T ?a ?b] =>
             destruct (Req_dec_T a b); [try (exfalso; lra) | try (exfalso; lra)]
         | |- context [Rlt_dec ?a ?b] =>
             destruct (Rlt_dec a b); [try (exfalso; lra) | try (exfalso; lra)]
         | |- context [Rge_dec ?a ?b] =>
             destruct (Rge_dec a b); [try (exfalso; lra) | try (exfalso; lra)]
         end.

Ltac concrete_shape :=
  repeat first [ split | reflexivity | constructor | lra | lia ].

(** ** Camera motion, projection and flow *)

Lemma has_shape3_channels2 {A : Type} h w (g : array2 (A * A)) :
  has_shape h w g -> has_shape3 h w 2 (channels2 g).
Proof.
  intros [Hh Hw]. unfold channels2, grid_map. split.
  - now rewrite length_map.
  - apply Forall_map. eapply Forall_impl; [|exact Hw].
    intros row Hrow; simpl. split.
    + now rewrite length_map.
    + apply Forall_map, Forall_forall. reflexivity.
Qed.

Lemma camera_flow_shape h w P points cam intr :
  has_shape h w P -> has_shape h w points ->
  length cam = 12%nat -> length intr = 3%nat ->
  exists flow,
    camera_flow P points cam intr = Ok flow /\
    dtype flow = float32 /\
    has_shape h w (values flow).
Proof.
  intros HP Hpts Hcam Hintr.
  destruct cam as [|? [|? [|? [|? [|? [|? [|? [|? [|? [|? [|? [|? [|? ?]]]]]]]]]]]]];
    simpl in Hcam; try (exfalso; lia).
  destruct intr as [|f [|x0 [|y0 [|? ?]]]]; simpl in Hintr; try (exfalso; lia).
  eexists. split; [reflexivity|]. split; [reflexivity|].
  simpl. unfold stack2, add_vec, dot. grid_shapes.
Qed.

Lemma has_shape_initial_point_field h w (xg yg d : array2 R) f x0 y0 :
  has_shape h w xg -> has_shape h w yg -> has_shape h w d ->
  has_shape h w (initial_point_field xg yg d f x0 y0).
Proof. intros. unfold initial_point_field, stack3. grid_shapes. Qed.

(** The call on well-shaped arguments: the three stages, with the object
    loop in closed form. *)
Lemma dense_flow_closed h w n (depth : array3 R) motions masks cam f x0 y0 :
  has_shape3 h w 1 depth ->
  has_shape n 15 motions ->
  has_shape3 n h w masks ->
  exists xg yg : array2 R,
    has_shape h w xg /\ has_shape h w yg /\
    dense_flow_from_motion (Rank3 depth) motions masks cam [f; x0; y0]
    = camera_flow
        (spec_apply_objects motions masks
           (initial_point_field xg yg (grid_map (hd 0) depth) f x0 y0))
        (stack2 (grid_map Fin xg) (grid_map Fin yg)) cam [f; x0; y0].
Proof.
  intros Hd [Hn Hmo] [Hn' Hma].
  destruct (pixel_points_closed h w depth [f; x0; y0] Hd)
    as (xg & yg & Hx & Hy & Hpp).
  pose proof (has_shape_first_channel h w depth Hd) as Hd2.
  exists xg, yg. split; [exact Hx | split; [exact Hy |]].
  unfold dense_flow_from_motion. rewrite Hpp.
  rewrite _pixels_to_3d_intrinsics. cbn [bind].
  fold (initial_point_field xg yg (grid_map (hd 0) depth) f x0 y0).
  rewrite (apply_objects_closed h w); trivial; [congruence|].
  now apply has_shape_initial_point_field.
Qed.

(** C2, as the code has it: on a depth map of shape [[H, W, 1]] (with motions
    [[N, 15]], masks [[N, H, W]], camera motion [[12]], intrinsics [[3]]) the
    call returns an array of shape [[H, W, 2]] and dtype [float32]. *)
Theorem dense_flow_shape h w n (depth : array3 R) motions masks cam intr :
  has_shape3 h w 1 depth ->
  has_shape n 15 motions ->
  has_shape3 n h w masks ->
  length cam = 12%nat ->
  length intr = 3%nat ->
  exists flow,
    dense_flow_from_motion (Rank3 depth) motions masks cam intr = Ok flow /\
    dtype flow = float32 /\
    has_shape3 h w 2 (channels2 (values flow)).
Proof.
  intros Hd Hmo Hma Hcam Hintr.
  destruct intr as [|f [|x0 [|y0 [|? ?]]]]; simpl in Hintr; try (exfalso; lia).
  destruct (dense_flow_closed h w n depth motions masks cam f x0 y0 Hd Hmo Hma)
    as (xg & yg & Hx & Hy & Hflow).
  rewrite Hflow.
  destruct (camera_flow_shape h w
              (spec_apply_objects motions masks
                 (initial_point_field xg yg (grid_map (hd 0) depth) f x0 y0))
              (stack2 (grid_map Fin xg) (grid_map Fin yg)) cam [f; x0; y0])
    as (flow & Hok & Hdt & Hsh); trivial.
  - apply has_shape_spec_apply_objects; [apply Hma|].
    apply has_shape_initial_point_field; trivial.
    now apply (has_shape_first_channel h w).
  - apply has_shape_stack2; grid_shapes.
  - exists flow. split; [exact Hok|]. split; [exact Hdt|].
    now apply has_shape3_channels2.
Qed.

Lemma dense_flow_shape_witness :
  exists flow,
    dense_flow_from_motion (Rank3 [[[2]; [4]]]) [identity_motion] [[[1; 0]]]
      identity_camera_motion [1; 0; 0] = Ok flow /\
    dtype flow = float32 /\
    has_shape3 1 2 2 (channels2 (values flow)).
Proof.
  apply (dense_flow_shape 1 2 1); concrete_shape.
Defined.

(** C2 as stated fails: on a depth map of rank 2 the indexing
    [depth[:, :, 0]] raises, and no flow is returned. *)
Lemma dense_flow_rejects_rank2_depth :
  dense_flow_from_motion (Rank2 [[1]]) [] [] identity_camera_motion [1; 0; 0]
  = Raise (IndexError "too many indices for array: array is 2-dimensional, but 3 were indexed")
  /\ ~ (exists flow,
          dense_flow_from_motion (Rank2 [[1]]) [] [] identity_camera_motion
            [1; 0; 0] = Ok flow).
Proof.
  split; [reflexivity|]. intros [flow H]. discriminate H.
Qed.

(** So it is on every depth map of rank 2, whatever the other arguments
    are. *)
Lemma dense_flow_rank2_depth_raises (depth : array2 R) (motions : array2 R)
  (masks : array3 R) (camera_motion camera_intrinsics : list R) :
  dense_flow_from_motion (Rank2 depth) motions masks camera_motion
    camera_intrinsics
  = Raise (IndexError "too many indices for array: array is 2-dimensional, but 3 were indexed").
Proof. reflexivity. Qed.

Lemma has_shape_repeat {A : Type} h w (c : A) :
  has_shape h w (repeat (repeat c w) h).
Proof.
  split.
  - apply repeat_length.
  - apply Forall_forall. intros row Hrow.
    apply repeat_spec in Hrow. subst. apply repeat_length.
Qed.

Lemma grid_get_repeat {A : Type} h w (c : A) i j :
  (i < h)%nat -> (j < w)%nat ->
  grid_get (repeat (repeat c w) h) i j = Some c.
Proof.
  intros Hi Hj. unfold grid_get.
  rewrite nth_error_repeat by exact Hi.
  now apply nth_error_repeat.
Qed.

(** ** Points that are not finite *)

Lemma combine_app {A B : Type} (a a' : list A) (b b' : list B) :
  length a = length b ->
  combine (a ++ a') (b ++ b') = combine a b ++ combine a' b'.
Proof.
  revert b; induction a as [|x a IH]; intros [|y b] H; simpl in *;
    try discriminate; trivial.
  f_equal. apply IH. now injection H.
Qed.

Lemma grid_map_ext {A B : Type} (f g : A -> B) (a : array2 A) :
  (forall v, f v = g v) -> grid_map f a = grid_map g a.
Proof.
  intros H. unfold grid_map. apply map_ext. intros row. now apply map_ext.
Qed.

Lemma grid_map2_map_r {A B B' C : Type} (f : A -> B' -> C) (g : B -> B')
  (a : array2 A) (b : array2 B) :
  grid_map2 f a (grid_map g b) = grid_map2 (fun x y => f x (g y)) a b.
Proof.
  unfold grid_map2, grid_map. rewrite map2_map_r.
  apply map2_ext_in. intros; apply map2_map_r.
Qed.

Lemma grid_map2_ext {A B C : Type} (f g : A -> B -> C) a b :
  (forall x y, f x y = g x y) -> grid_map2 f a b = grid_map2 g a b.
Proof.
  intros H. unfold grid_map2. apply map2_ext_in. intros ra rb _ _.
  apply map2_ext_in. intros; apply H.
Qed.

Lemma blend_taint (rot : m3 R) (t c : v3 R) (m : npfloat) (p : vec3) :
  blend m (taint p)
    (rigid_transform (mat3_of rot) (vec3_of t) (vec3_of c) (taint p))
  = blend m p (rigid_transform (mat3_of rot) (vec3_of t) (vec3_of c) p).
Proof.
  destruct rot as [[[[r11 r12] r13] [[r21 r22] r23]] [[r31 r32] r33]].
  destruct t as [[t1 t2] t3], c as [[c1 c2] c3].
  destruct p as [[[a|] [b|]] [d|]], m as [mv|]; reflexivity.
Qed.

Lemma camera_taint (rot : m3 R) (t : vec3) (p : vec3) :
  vadd fadd (vec_mat fadd fmul (taint p) (transpose (mat3_of rot))) t
  = vadd fadd (vec_mat fadd fmul p (transpose (mat3_of rot))) t.
Proof.
  destruct rot as [[[[r11 r12] r13] [[r21 r22] r23]] [[r31 r32] r33]].
  destruct t as [[t1 t2] t3].
  destruct p as [[[a|] [b|]] [d|]]; reflexivity.
Qed.

Lemma spec_object_step_taint (P : array2 vec3) (object : list R * array2 R) :
  spec_object_step (grid_map taint P) object = spec_object_step P object.
Proof.
  destruct object as [mo k]. unfold spec_object_step.
  rewrite grid_map2_map_r. apply grid_map2_ext.
  intros mv p. apply blend_taint.
Qed.

Lemma camera_flow_taint (P : array2 vec3) points cam intr :
  camera_flow (grid_map taint P) points cam intr
  = camera_flow P points cam intr.
Proof.
  unfold camera_flow.
  destruct (reshape33 (slice 0 9 cam)) as [rot|e]; cbn [bind]; trivial.
  destruct (broadcast3 (skipn 9 cam)) as [t|e]; cbn [bind]; trivial.
  unfold add_vec, dot. rewrite !grid_map_map.
  rewrite (grid_map_ext _
             (fun v => vadd fadd
                         (vec_mat fadd fmul v (transpose (mat3_of rot))) t));
    [reflexivity|].
  intros p. apply camera_taint.
Qed.

Lemma later_stages_taint objects (P : array2 vec3) points cam intr :
  camera_flow (fold_left spec_object_step objects (grid_map taint P))
    points cam intr
  = camera_flow (fold_left spec_object_step objects P) points cam intr.
Proof.
  destruct objects as [|object objects]; simpl.
  - apply camera_flow_taint.
  - now rewrite spec_object_step_taint.
Qed.

(** C5: the loop visits the objects in index order and replaces the point
    field [P] by [P + m * (((P - c) . R^T + c + t) - P)] at each of them, so
    that the object of index [n] acts on the field that the objects
    [0 .. n-1] have left. *)
Theorem objects_applied_in_index_order h w n motions masks (P : array2 vec3) :
  has_shape n 15 motions ->
  has_shape3 n h w masks ->
  has_shape h w P ->
  apply_objects motions masks P
  = Ok (fold_left spec_object_step (combine motions masks) P)
  /\ forall motion mask,
       length motion = 15%nat -> has_shape h w mask ->
       apply_objects (motions ++ [motion]) (masks ++ [mask]) P
       = Ok (spec_object_step (spec_apply_objects motions masks P)
               (motion, mask)).
Proof.
  intros [Hn Hmo] [Hn' Hma] HP. split.
  - apply (apply_objects_closed h w); trivial. congruence.
  - intros motion mask Hlen Hmask.
    rewrite (apply_objects_closed h w); trivial.
    + unfold spec_apply_objects.
      rewrite combine_app by congruence. now rewrite fold_left_app.
    + rewrite !length_app. simpl. lia.
    + apply Forall_app. split; trivial. now constructor.
    + apply Forall_app. split; trivial. now constructor.
Qed.

Lemma objects_applied_in_index_order_witness :
  apply_objects [identity_motion] [[[1; 0]]] [[(Fin 1, Fin 2, Fin 3); (Fin 0, Fin 0, Fin 1)]]
  = Ok (fold_left spec_object_step (combine [identity_motion] [[[1; 0]]])
          [[(Fin 1, Fin 2, Fin 3); (Fin 0, Fin 0, Fin 1)]])
  /\ forall motion mask,
       length motion = 15%nat -> has_shape 1 2 mask ->
       apply_objects ([identity_motion] ++ [motion]) ([[[1; 0]]] ++ [mask])
         [[(Fin 1, Fin 2, Fin 3); (Fin 0, Fin 0, Fin 1)]]
       = Ok (spec_object_step
               (spec_apply_objects [identity_motion] [[[1; 0]]]
                  [[(Fin 1, Fin 2, Fin 3); (Fin 0, Fin 0, Fin 1)]])
               (motion, mask)).
Proof.
  apply (objects_applied_in_index_order 1 2 1); concrete_shape.
Defined.

(** Two objects on one pixel, both with mask 1: the result depends on which
    of them comes first. *)
Example object_order_matters :
  apply_objects [shift_x; turn_z] [[[1]]; [[1]]] [[(Fin 1, Fin 0, Fin 1)]]
  = Ok [[(Fin 0, Fin 2, Fin 1)]]
  /\ apply_objects [turn_z; shift_x] [[[1]]; [[1]]] [[(Fin 1, Fin 0, Fin 1)]]
     = Ok [[(Fin 1, Fin 1, Fin 1)]].
Proof.
  split.
  - rewrite (apply_objects_closed 1 1); [| concrete_shape ..].
    unfold spec_apply_objects, spec_object_step, shift_x, turn_z, grid_map2.
    simpl. repeat f_equal; ring.
  - rewrite (apply_objects_closed 1 1); [| concrete_shape ..].
    unfold spec_apply_objects, spec_object_step, shift_x, turn_z, grid_map2.
    simpl. repeat f_equal; ring.
Qed.

(** ** Box matcher *)

Lemma argmax_from_correct (row pre : list R) (bi : nat) :
  (bi < length pre)%nat ->
  (forall k, (k < length pre)%nat -> nth k pre 0 <= nth bi pre 0) ->
  (forall k, (k < bi)%nat -> nth k pre 0 < nth bi pre 0) ->
  is_first_argmax (pre ++ row)
    (argmax_from (nth bi pre 0) bi (length pre) row).
Proof.
  revert pre bi. induction row as [|v row IH]; intros pre bi Hbi Hmax Hfirst.
  - simpl. rewrite app_nil_r. repeat split; trivial.
  - simpl.
    assert (Hlast : nth (length pre) (pre ++ [v]) 0 = v)
      by (rewrite app_nth2, Nat.sub_diag by lia; reflexivity).
    assert (Hlen : length (pre ++ [v]) = S (length pre))
      by (rewrite length_app; simpl; lia).
    destruct (Rlt_dec (nth bi pre 0) v) as [Hlt|Hge].
    + assert (IH' : is_first_argmax ((pre ++ [v]) ++ row)
                      (argmax_from (nth (length pre) (pre ++ [v]) 0)
                         (length pre) (length (pre ++ [v])) row)).
      { apply IH.
        - lia.
        - intros k Hk. rewrite Hlast.
          destruct (Nat.eq_dec k (length pre)) as [->|Hne].
          + rewrite Hlast. lra.
          + rewrite app_nth1 by lia.
            assert (nth k pre 0 <= nth bi pre 0) by (apply Hmax; lia). lra.
        - intros k Hk. rewrite Hlast, app_nth1 by lia.
          assert (nth k pre 0 <= nth bi pre 0) by (apply Hmax; lia). lra. }
      rewrite Hlast, Hlen, <- app_assoc in IH'. exact IH'.
    + assert (IH' : is_first_argmax ((pre ++ [v]) ++ row)
                      (argmax_from (nth bi (pre ++ [v]) 0) bi
                         (length (pre ++ [v])) row)).
      { apply IH.
        - lia.
        - intros k Hk. rewrite (app_nth1 pre [v] 0 Hbi).
          destruct (Nat.eq_dec k (length pre)) as [->|Hne].
          + rewrite Hlast. lra.
          + rewrite app_nth1 by lia. apply Hmax; lia.
        - intros k Hk. rewrite !app_nth1 by lia. now apply Hfirst. }
      rewrite (app_nth1 pre [v] 0 Hbi), Hlen, <- app_assoc in IH'. exact IH'.
Qed.

Lemma best_gt_correct (row : list R) :
  row <> [] -> is_first_argmax row (best_gt row).
Proof.
  destruct row as [|v row]; [congruence|]. intros _.
  unfold best_gt; simpl.
  apply (argmax_from_correct row [v] 0); simpl.
  - lia.
  - intros k Hk. assert (k = 0%nat) by lia. subst. lra.
  - intros k Hk. lia.
Qed.

Lemma is_first_argmax_unique (row : list R) (j j' : nat) :
  is_first_argmax row j -> is_first_argmax row j' -> j = j'.
Proof.
  intros (Hj & Hmax & Hfirst) (Hj' & Hmax' & Hfirst').
  destruct (Nat.lt_trichotomy j j') as [Hlt|[Heq|Hgt]]; trivial.
  - pose proof (Hfirst' j Hlt). pose proof (Hmax j' Hj'). lra.
  - pose proof (Hfirst j' Hgt). pose proof (Hmax' j Hj). lra.
Qed.

Lemma argmax_best_gt (row : list R) :
  row <> [] -> argmax row = Ok (best_gt row).
Proof. destruct row; [congruence | reflexivity]. Qed.

Lemma index_nth {A : Type} (l : list A) (i : nat) (d : A) :
  (i < length l)%nat -> index l i = Ok (nth i l d).
Proof.
  intros Hi. unfold index.
  now rewrite (nth_error_nth' l d Hi).
Qed.

Lemma foldM_app {A S : Type} (f : S -> A -> result S) (l1 l2 : list A) (s : S) :
  foldM f (l1 ++ l2) s = (s' <- foldM f l1 s ;; foldM f l2 s').
Proof.
  revert s; induction l1 as [|a l1 IH]; intros s; simpl; trivial.
  destruct (f s a); simpl; trivial.
Qed.

Lemma matched_pairs_S (iou : array2 R) (thr : R) (n : nat) :
  matched_pairs iou thr (S n)
  = matched_pairs iou thr n
    ++ (if Rge_dec (entry iou n (best_gt (nth n iou []))) thr
        then [(n, best_gt (nth n iou []))] else []).
Proof.
  unfold matched_pairs. rewrite seq_S, flat_map_app. simpl.
  now rewrite app_nil_r.
Qed.

Lemma in_matched_pairs (iou : array2 R) (thr : R) (n i j : nat) :
  In (i, j) (matched_pairs iou thr n) <->
  (i < n)%nat /\ j = best_gt (nth i iou []) /\ entry iou i j >= thr.
Proof.
  unfold matched_pairs. rewrite in_flat_map. split.
  - intros (k & Hk & Hin). apply in_seq in Hk. cbv zeta in Hin.
    destruct (Rge_dec (entry iou k (best_gt (nth k iou []))) thr) as [Hge|];
      [|contradiction].
    destruct Hin as [[= <- <-]|[]]. repeat split; trivial. lia.
  - intros (Hi & -> & Hge). exists i. split; [apply in_seq; lia|].
    cbv zeta.
    destruct (Rge_dec (entry iou i (best_gt (nth i iou []))) thr);
      [now left | contradiction].
Qed.

(** On an IoU matrix without empty rows, the emitted pairs are the surviving
    ones. *)
Lemma matched_pairs_survive (iou : array2 R) (thr : R) (i j : nat) :
  Forall (fun row => row <> []) iou ->
  In (i, j) (matched_pairs iou thr (length iou)) <-> survives iou thr i j.
Proof.
  intros Hrows. rewrite in_matched_pairs. unfold survives.
  assert (Hrow : (i < length iou)%nat -> nth i iou [] <> []).
  { intros Hi. rewrite Forall_forall in Hrows. apply Hrows.
    now apply nth_In. }
  split.
  - intros (Hi & -> & Hge). repeat split; trivial.
    + apply best_gt_correct; auto.
    + apply best_gt_correct; auto.
    + apply best_gt_correct; auto.
  - intros (Hi & Harg & Hge). repeat split; trivial.
    apply (is_first_argmax_unique (nth i iou [])); trivial.
    apply best_gt_correct; auto.
Qed.

Lemma sorted_snoc (l : list nat) (x : nat) :
  StronglySorted lt l -> Forall (fun i => (i < x)%nat) l ->
  StronglySorted lt (l ++ [x]).
Proof.
  induction 1 as [|a l Hs IH Ha]; intros Hall; simpl.
  - repeat constructor.
  - inversion Hall; subst. constructor; [now apply IH|].
    apply Forall_app. split; trivial. now constructor.
Qed.

Lemma matched_pairs_sorted (iou : array2 R) (thr : R) (n : nat) :
  StronglySorted lt (map fst (matched_pairs iou thr n)) /\
  Forall (fun i => (i < n)%nat) (map fst (matched_pairs iou thr n)).
Proof.
  induction n as [|n [IHs IHb]].
  - split; constructor.
  - rewrite matched_pairs_S, map_app.
    assert (Hb : Forall (fun i => (i < S n)%nat)
                   (map fst (matched_pairs iou thr n)))
      by (eapply Forall_impl; [|exact IHb]; simpl; intros; lia).
    destruct (Rge_dec (entry iou n (best_gt (nth n iou []))) thr); simpl.
    + split.
      * now apply sorted_snoc.
      * apply Forall_app. split; trivial. repeat constructor.
    + rewrite app_nil_r. now split.
Qed.

Lemma matching_loop (iou gt_boxes dm : array2 R) (thr : R) (n : nat) :
  (n <= length iou)%nat ->
  Forall (fun row => row <> []) iou ->
  (forall i j, In (i, j) (matched_pairs iou thr n) ->
               (i < length dm)%nat /\ (j < length gt_boxes)%nat) ->
  foldM (match_update iou (map best_gt iou) gt_boxes dm thr) (seq 0 n) ([], [])
  = Ok (map (fun p => nth (fst p) dm []) (matched_pairs iou thr n),
        map (fun p => nth (snd p) gt_boxes []) (matched_pairs iou thr n)).
Proof.
  intros Hn Hrows. induction n as [|n IH]; intros Hin; [reflexivity|].
  rewrite seq_S, foldM_app. simpl.
  rewrite IH; [| lia |];
    [| intros i j Hij; apply Hin; rewrite matched_pairs_S;
       apply in_or_app; now left].
  cbn [bind]. unfold match_update.
  rewrite (index_nth (map best_gt iou) n (best_gt []))
    by (rewrite length_map; lia).
  rewrite map_nth. cbn [bind].
  rewrite (index_nth iou n []) by lia. cbn [bind].
  assert (Hrow : nth n iou [] <> []).
  { rewrite Forall_forall in Hrows. apply Hrows. apply nth_In. lia. }
  destruct (best_gt_correct _ Hrow) as (Hj & _ & _).
  rewrite (index_nth (nth n iou []) _ 0) by exact Hj. cbn [bind].
  specialize (Hin n (best_gt (nth n iou []))).
  rewrite matched_pairs_S in *. unfold entry in *.
  destruct (Rge_dec (nth (best_gt (nth n iou [])) (nth n iou []) 0) thr).
  - destruct Hin as [Hi Hg]; [apply in_or_app; right; now left|].
    rewrite (index_nth dm n []) by exact Hi. cbn [bind].
    rewrite (index_nth gt_boxes _ []) by exact Hg. cbn [bind].
    now rewrite !map_app.
  - now rewrite app_nil_r.
Qed.

Lemma matching_closed (iou gt_boxes dm : array2 R) (thr : R) :
  Forall (fun row => row <> []) iou ->
  (forall i j, survives iou thr i j ->
               (i < length dm)%nat /\ (j < length gt_boxes)%nat) ->
  matching iou gt_boxes dm (length iou) thr
  = Ok (map (fun p => nth (fst p) dm []) (matched_pairs iou thr (length iou)),
        map (fun p => nth (snd p) gt_boxes [])
          (matched_pairs iou thr (length iou))).
Proof.
  intros Hrows Hin. unfold matching.
  rewrite (mapM_ok argmax best_gt).
  - cbn [bind]. apply matching_loop; trivial.
    intros i j Hij. apply Hin. now apply matched_pairs_survive.
  - intros row Hrow. apply argmax_best_gt.
    rewrite Forall_forall in Hrows. now apply Hrows.
Qed.

Lemma rows_not_empty {A : Type} d g (m : array2 A) :
  has_shape d g m -> (0 < g)%nat -> Forall (fun row => row <> []) m.
Proof.
  intros [_ Hrows] Hg. eapply Forall_impl; [|exact Hrows].
  intros row Hlen; simpl in Hlen. intros ->. simpl in Hlen. lia.
Qed.

(** C6: with an IoU matrix of [D] rows and [G >= 1] columns, the matcher
    appends, in the order of the detection indices and once per detection at
    most, the motion of detection [i] and the box of ground truth [j] exactly
    for the pairs [(i, j)] such that [j] is the first argmax of row [i] and
    [M[i, j] >= threshold]; nothing keeps two detections from sharing a ground
    truth index. *)
Theorem greedy_matching D G (iou gt_boxes detected_motions : array2 R)
  (threshold : R) :
  has_shape D G iou ->
  (0 < G)%nat ->
  length detected_motions = D ->
  length gt_boxes = G ->
  exists pairs : list (nat * nat),
    matching iou gt_boxes detected_motions D threshold
    = Ok (map (fun p => nth (fst p) detected_motions []) pairs,
          map (fun p => nth (snd p) gt_boxes []) pairs) /\
    StronglySorted lt (map fst pairs) /\
    forall i j, In (i, j) pairs <-> survives iou threshold i j.
Proof.
  intros Hiou HG Hdm Hgt.
  pose proof (rows_not_empty D G iou Hiou HG) as Hrows.
  exists (matched_pairs iou threshold (length iou)).
  destruct Hiou as [HD Hw].
  split; [| split].
  - rewrite <- HD. apply matching_closed; trivial.
    intros i j (Hi & (Hj & _) & _). split; [lia|].
    rewrite Forall_forall in Hw.
    rewrite (Hw (nth i iou [])) in Hj by (apply nth_In; lia). lia.
  - apply matched_pairs_sorted.
  - intros i j. now apply matched_pairs_survive.
Qed.

Lemma greedy_matching_witness :
  exists pairs : list (nat * nat),
    matching [[9 / 10]; [3 / 10]; [6 / 10]] [[0; 0; 1; 1]]
      [shift_x; turn_z; identity_motion] 3 (1 / 2)
    = Ok (map (fun p => nth (fst p) [shift_x; turn_z; identity_motion] []) pairs,
          map (fun p => nth (snd p) [[0; 0; 1; 1]] []) pairs) /\
    StronglySorted lt (map fst pairs) /\
    forall i j, In (i, j) pairs <->
                survives [[9 / 10]; [3 / 10]; [6 / 10]] (1 / 2) i j.
Proof.
  apply (greedy_matching 3 1); concrete_shape.
Defined.

(** The worked example of the specification: IoU values 0.9, 0.3 and 0.6
    against one ground truth box, threshold 0.5.  The first and the third
    detection are matched, both to ground truth 0. *)
Example greedy_matching_threshold_example :
  matching [[9 / 10]; [3 / 10]; [6 / 10]] [[0; 0; 1; 1]]
    [shift_x; turn_z; identity_motion] 3 (1 / 2)
  = Ok ([shift_x; identity_motion], [[0; 0; 1; 1]; [0; 0; 1; 1]]).
Proof.
  unfold matching. simpl. unfold entry. decide_reals. simpl.
  decide_reals. simpl. decide_reals. reflexivity.
Qed.

(** ** Evaluation entry point *)

Lemma matched_pairs_none (iou : array2 R) (thr : R) :
  Forall (fun row => row <> []) iou ->
  (forall i j, ~ survives iou thr i j) ->
  matched_pairs iou thr (length iou) = [].
Proof.
  intros Hrows Hnone.
  destruct (matched_pairs iou thr (length iou)) as [|[i j] l] eqn:E; trivial.
  exfalso. apply (Hnone i j). apply matched_pairs_survive; trivial.
  rewrite E. now left.
Qed.

(** C7: when no detection survives the threshold, the call raises a
    [ValueError] before [_motion_errors] is entered, and returns no report:
    [np.stack] refuses the empty list of matched motions (on an IoU matrix
    without columns, [np.argmax] has refused its first row before). *)
Theorem no_surviving_detection_raises
  (iou_fn : BoxList -> BoxList -> array2 R)
  (gt_boxes gt_motions detected_boxes detected_motions : array2 R)
  (threshold : R) (G : nat) :
  has_shape (length detected_boxes) G
    (iou_fn (mk_BoxList detected_boxes) (mk_BoxList gt_boxes)) ->
  (forall i j,
     ~ survives (iou_fn (mk_BoxList detected_boxes) (mk_BoxList gt_boxes))
         threshold i j) ->
  exists msg,
    evaluate iou_fn gt_boxes gt_motions detected_boxes detected_motions
      threshold
    = Raise (ValueError msg) /\
    ((0 < G)%nat -> msg = "need at least one array to stack"%string).
Proof.
  intros Hshape Hnone.
  unfold evaluate, evaluate_matched, num_boxes. cbn [get].
  set (iou := iou_fn (mk_BoxList detected_boxes) (mk_BoxList gt_boxes)) in *.
  destruct (Nat.eq_dec G 0) as [->|HG].
  - destruct Hshape as [HD Hrows].
    destruct iou as [|row iou'].
    + simpl in HD. rewrite <- HD. eexists. split; [reflexivity | lia].
    + inversion Hrows as [|? ? Hrow _]; subst.
      destruct row; [|discriminate]. eexists. split; [reflexivity | lia].
  - pose proof (rows_not_empty _ G iou Hshape ltac:(lia)) as Hrows.
    destruct Hshape as [HD _]. rewrite <- HD.
    rewrite matching_closed; trivial.
    + rewrite (matched_pairs_none iou threshold Hrows Hnone).
      eexists. split; reflexivity.
    + intros i j Hs. exfalso. exact (Hnone i j Hs).
Qed.

Lemma no_surviving_detection_raises_witness :
  exists msg,
    evaluate (fun _ _ => [[3 / 10]]) [[0; 0; 1; 1]] [identity_motion]
      [[0; 0; 2; 2]] [shift_x] (1 / 2)
    = Raise (ValueError msg) /\
    ((0 < 1)%nat -> msg = "need at least one array to stack"%string).
Proof.
  apply (no_surviving_detection_raises (fun _ _ => [[3 / 10]]) _ _ _ _ _ 1).
  - concrete_shape.
  - intros i j (Hi & (Hj & _) & Hge). simpl in Hi.
    assert (i = 0%nat) by lia. subst. simpl in Hj.
    assert (j = 0%nat) by lia. subst. unfold entry in Hge. simpl in Hge. lra.
Defined.

(** C1 fails on the code: the targets stacked for [_motion_errors] are rows
    of [gt_boxes]; [gt_motions] is not read at all.  With one ground truth
    box [[0, 0, 1, 1]] of identity motion, matched by one detection of motion
    [shift_x], the target is the box, not the motion. *)
Theorem evaluate_targets_are_box_coordinates :
  evaluate_matched (fun _ _ => [[1]]) [[0; 0; 1; 1]] [identity_motion]
    [[0; 0; 1; 1]] [shift_x] (1 / 2)
  = Ok ([shift_x], [[0; 0; 1; 1]])
  /\ [[0; 0; 1; 1]] <> [identity_motion]
  /\ forall iou_fn gt_boxes gt_motions gt_motions' detected_boxes
            detected_motions threshold,
       evaluate_matched iou_fn gt_boxes gt_motions detected_boxes
         detected_motions threshold
       = evaluate_matched iou_fn gt_boxes gt_motions' detected_boxes
           detected_motions threshold.
Proof.
  split; [| split].
  - unfold evaluate_matched, matching. simpl. decide_reals. reflexivity.
  - discriminate.
  - reflexivity.
Qed.

(** ** Motion error evaluator *)

Lemma motion_errors_never_returns (pred target : array2 R) (report : error_report) :
  _motion_errors pred target <> Ok report.
Proof.
  unfold _motion_errors.
  repeat match goal with
         | |- bind np_norm _ <> _ => unfold np_norm; cbn [bind]; discriminate
         | |- bind ?r _ <> _ => destruct r; cbn [bind]; [|discriminate]
         end.
Qed.

(** C8 fails on the code: [_motion_errors] never returns a mapping.  On one
    matched pair of identity motions the call raises at [np.norm] (line 119),
    and on no input does it return; the five means it is meant to return are
    those of [spec_motion_errors]. *)
Theorem motion_errors_raises :
  _motion_errors [identity_motion] [identity_motion]
  = Raise (AttributeError "module 'numpy' has no attribute 'norm'")
  /\ forall pred target report, _motion_errors pred target <> Ok report.
Proof.
  split.
  - reflexivity.
  - exact motion_errors_never_returns.
Qed.

(** The five means on the pair (identity motion, [shift_x]):
    no rotation error, a translation error of 1, and an undefined relative
    rotation error since the target rotation has angle 0. *)
Example spec_motion_errors_example :
  spec_motion_errors [identity_motion] [shift_x]
  = [("mRot", Fin 0); ("mTrans", Fin 1); ("mPivot", Fin 0);
     ("mRelRot", NonFinite); ("mRelTrans", Fin 1)]%string.
Proof.
  assert (Hacos : forall v, v = 1 -> acos (clip v (-1) 1) = 0).
  { intros v ->. unfold clip.
    rewrite Rmax_left by lra. rewrite Rmin_left by lra. apply acos_1. }
  assert (Hsqrt1 : forall v, v = 1 -> sqrt v = 1) by (intros v ->; apply sqrt_1).
  assert (Hsqrt0 : forall v, v = 0 -> sqrt v = 0) by (intros v ->; apply sqrt_0).
  unfold spec_motion_errors, spec_pair_errors, rotation_angle, norm3, mean,
    identity_motion, shift_x, rotation_of, translation_of, pivot_of.
  cbv [combine map fst snd nth fold_left length rmatmul matmul vec_mat mat_vec
       vdot vsub transpose trace].
  repeat match goal with
         | |- context [acos (clip ?v (-1) 1)] =>
             rewrite (Hacos v) by lra
         | |- context [sqrt ?v] =>
             first [ rewrite (Hsqrt1 v) by lra | rewrite (Hsqrt0 v) by lra ]
         end.
  simpl. decide_reals. simpl. decide_reals.
  repeat f_equal; field.
Qed.

(** ** Arguments of [dense_flow_from_motion] that do not fit *)

Lemma foldM_ext_in {A S : Type} (f g : S -> A -> result S) (l : list A) (s : S) :
  (forall a s', In a l -> f s' a = g s' a) -> foldM f l s = foldM g l s.
Proof.
  revert s; induction l as [|a l IH]; intros s H; simpl; trivial.
  rewrite (H a s) by now left.
  destruct (g s a); cbn [bind]; trivial.
  apply IH. intros b s' Hb. apply H. now right.
Qed.

(** The update for object [i] reads row [i] of [motions] and entry [i] of
    [masks], and nothing else of the two. *)
Lemma object_update_entries motions motions' masks masks' P i :
  nth_error motions i = nth_error motions' i ->
  nth_error masks i = nth_error masks' i ->
  object_update motions masks P i = object_update motions' masks' P i.
Proof.
  intros Hmo Hma. unfold object_update, index. rewrite Hmo.
  destruct (nth_error motions' i) as [mo|]; cbn [bind]; trivial.
  destruct (reshape33 (slice 0 9 mo)); cbn [bind]; trivial.
  destruct (reshape3 (slice 9 12 mo)); cbn [bind]; trivial.
  destruct (reshape3 (skipn 12 mo)); cbn [bind]; trivial.
  now rewrite Hma.
Qed.

Lemma object_update_without_mask motions masks P i mo :
  nth_error motions i = Some mo -> length mo = 15%nat ->
  nth_error masks i = None ->
  object_update motions masks P i
  = Raise (IndexError "index is out of bounds for axis 0").
Proof.
  intros Hmo Hlen Hma. unfold object_update, index. rewrite Hmo.
  destruct_motion mo Hlen. simpl. now rewrite Hma.
Qed.

Lemma object_update_malformed_motion motions masks P i mo :
  nth_error motions i = Some mo -> length mo <> 15%nat ->
  object_update motions masks P i = Raise reshape_error.
Proof.
  intros Hmo Hlen. unfold object_update, index. rewrite Hmo.
  destruct mo as [|? [|? [|? [|? [|? [|? [|? [|? [|? [|? [|? [|? [|? [|? [|?
    [|? ?]]]]]]]]]]]]]]]]; simpl in Hlen; try reflexivity.
  exfalso. now apply Hlen.
Qed.

(** The objects [0 .. k-1] of a longer call, when they and their masks are
    well shaped. *)
Lemma apply_objects_prefix h w motions masks (P : array2 vec3) k :
  (k <= length motions)%nat -> (k <= length masks)%nat ->
  Forall (fun mo => length mo = 15%nat) (firstn k motions) ->
  Forall (has_shape h w) (firstn k masks) ->
  has_shape h w P ->
  foldM (object_update motions masks) (seq 0 k) P
  = Ok (spec_apply_objects (firstn k motions) (firstn k masks) P).
Proof.
  intros Hk Hk' Hmo Hma HP.
  rewrite (foldM_ext_in _ (object_update (firstn k motions) (firstn k masks))).
  - rewrite <- (apply_objects_closed h w); trivial.
    + unfold apply_objects. now rewrite length_firstn, Nat.min_l.
    + rewrite !length_firstn. lia.
  - intros i s Hi. apply in_seq in Hi.
    apply object_update_entries; rewrite nth_error_firstn;
      destruct (Nat.ltb_spec i k); trivial; lia.
Qed.

Lemma has_shape_pixel_points h w (depth : array3 R) f x0 y0 :
  has_shape3 h w 1 depth ->
  exists points P,
    pixel_points (Rank3 depth) [f; x0; y0] = Ok (points, P) /\
    has_shape h w points /\ has_shape h w P.
Proof.
  intros Hd.
  destruct (pixel_points_closed h w depth [f; x0; y0] Hd)
    as (xg & yg & Hx & Hy & Hpp).
  rewrite _pixels_to_3d_intrinsics in Hpp. cbn [bind] in Hpp.
  eexists. eexists. split; [exact Hpp|].
  pose proof (has_shape_first_channel h w depth Hd).
  split; [apply has_shape_stack2 | apply has_shape_stack3]; grid_shapes.
Qed.

Lemma firstn_app_length {A : Type} (l1 l2 : list A) :
  firstn (length l1) (l1 ++ l2) = l1.
Proof.
  rewrite firstn_app, firstn_all, Nat.sub_diag. simpl. apply app_nil_r.
Qed.

Lemma Forall_firstn_of {A : Type} (Q : A -> Prop) (n : nat) (l : list A) :
  Forall Q l -> Forall Q (firstn n l).
Proof.
  revert n. induction l as [|a l IH]; intros [|n] H; simpl;
    try constructor; inversion H; subst; auto.
Qed.

(** X1: masks beyond the number of motion rows are never read; the call
    returns (or raises) what it does without them. *)
Theorem surplus_masks_are_ignored depth (motions : array2 R)
  (masks extra : array3 R) cam intr :
  (length motions <= length masks)%nat ->
  dense_flow_from_motion depth motions (masks ++ extra) cam intr
  = dense_flow_from_motion depth motions masks cam intr.
Proof.
  intros Hlen. unfold dense_flow_from_motion.
  destruct (pixel_points depth intr) as [[points P]|e]; cbn [bind]; trivial.
  replace (apply_objects motions (masks ++ extra) P)
    with (apply_objects motions masks P); trivial.
  unfold apply_objects. apply foldM_ext_in.
  intros i s Hi. apply in_seq in Hi.
  apply object_update_entries; trivial.
  rewrite nth_error_app1; trivial. lia.
Qed.

Lemma surplus_masks_are_ignored_witness :
  dense_flow_from_motion (Rank3 [[[2]; [4]]]) [shift_x]
    ([[[1; 0]]] ++ [[[1; 1]]]) identity_camera_motion [3; 1; 1]
  = dense_flow_from_motion (Rank3 [[[2]; [4]]]) [shift_x] [[[1; 0]]]
      identity_camera_motion [3; 1; 1].
Proof.
  apply surplus_masks_are_ignored. simpl. lia.
Defined.

(** X2: with fewer masks than motion rows (the arguments being well shaped
    otherwise), the loop reaches an object without a mask and the call raises
    [IndexError]. *)
Theorem missing_mask_raises h w (depth : array3 R) (motions : array2 R)
  (masks : array3 R) cam f x0 y0 :
  has_shape3 h w 1 depth ->
  Forall (fun mo => length mo = 15%nat) motions ->
  Forall (has_shape h w) masks ->
  (length masks < length motions)%nat ->
  dense_flow_from_motion (Rank3 depth) motions masks cam [f; x0; y0]
  = Raise (IndexError "index is out of bounds for axis 0").
Proof.
  intros Hd Hmo Hma Hlen.
  destruct (has_shape_pixel_points h w depth f x0 y0 Hd)
    as (points & P & Hpp & _ & HP).
  unfold dense_flow_from_motion. rewrite Hpp. cbn [bind].
  unfold apply_objects.
  replace (length motions)
    with (length masks + S (length motions - S (length masks)))%nat by lia.
  rewrite seq_app, foldM_app.
  rewrite (apply_objects_prefix h w); trivial; try lia;
    [| now apply Forall_firstn_of | now apply Forall_firstn_of].
  cbn [bind]. simpl.
  rewrite (object_update_without_mask _ _ _ _ (nth (length masks) motions [])).
  - reflexivity.
  - apply nth_error_nth'. lia.
  - rewrite Forall_forall in Hmo. apply Hmo. apply nth_In. lia.
  - apply nth_error_None. lia.
Qed.

Lemma missing_mask_raises_witness :
  dense_flow_from_motion (Rank3 [[[2]; [4]]]) [shift_x; turn_z] [[[1; 0]]]
    identity_camera_motion [3; 1; 1]
  = Raise (IndexError "index is out of bounds for axis 0").
Proof.
  apply (missing_mask_raises 1 2); concrete_shape.
Defined.

(** X3: a motion row that does not hold 15 values makes the call raise
    [ValueError] (a reshape fails) when the loop reaches it, the objects
    before it being well shaped; when no row holds 15 values, at the first
    object. *)
Theorem malformed_motion_raises h w (depth : array3 R)
  (motions1 motions2 : array2 R) (motion : list R)
  (masks1 masks2 : array3 R) cam f x0 y0 :
  has_shape3 h w 1 depth ->
  length masks1 = length motions1 ->
  Forall (fun mo => length mo = 15%nat) motions1 ->
  Forall (has_shape h w) masks1 ->
  length motion <> 15%nat ->
  dense_flow_from_motion (Rank3 depth) (motions1 ++ motion :: motions2)
    (masks1 ++ masks2) cam [f; x0; y0]
  = Raise (ValueError "cannot reshape array").
Proof.
  intros Hd Hlen Hmo Hma Hbad.
  destruct (has_shape_pixel_points h w depth f x0 y0 Hd)
    as (points & P & Hpp & _ & HP).
  unfold dense_flow_from_motion. rewrite Hpp. cbn [bind].
  unfold apply_objects.
  rewrite length_app. cbn [length].
  rewrite seq_app, foldM_app.
  rewrite (apply_objects_prefix h w); trivial.
  - cbn [bind]. simpl.
    rewrite (object_update_malformed_motion _ _ _ _ motion); trivial.
    rewrite nth_error_app2, Nat.sub_diag by lia. reflexivity.
  - rewrite length_app. lia.
  - rewrite length_app. lia.
  - now rewrite firstn_app_length.
  - now rewrite <- Hlen, firstn_app_length.
Qed.

Lemma malformed_motion_raises_witness :
  dense_flow_from_motion (Rank3 [[[2]; [4]]])
    ([] ++ [1; 0; 0; 0; 1; 0; 0; 0; 1; 0; 0; 0]
        :: [[0; -1; 0; 1; 0; 0; 0; 0; 1; 0; 0; 0]])
    ([] ++ [[[1; 0]]; [[1; 1]]]) identity_camera_motion [3; 1; 1]
  = Raise (ValueError "cannot reshape array").
Proof.
  apply (malformed_motion_raises 1 2); concrete_shape.
  simpl. lia.
Defined.

(** X4: camera intrinsics that do not hold exactly three values make the
    call raise [ValueError] (the unpacking [f, x0, y0 = ...] fails), whatever
    the motions and masks. *)
Theorem malformed_intrinsics_raise h w (depth : array3 R) motions masks
  cam intr :
  has_shape3 h w 1 depth ->
  length intr <> 3%nat ->
  exists msg,
    dense_flow_from_motion (Rank3 depth) motions masks cam intr
    = Raise (ValueError msg).
Proof.
  intros Hd Hintr.
  destruct (pixel_points_closed h w depth intr Hd) as (xg & yg & _ & _ & Hpp).
  unfold dense_flow_from_motion. rewrite Hpp. unfold _pixels_to_3d.
  destruct intr as [|? [|? [|? [|? ?]]]]; cbn [unpack3 bind];
    try (eexists; reflexivity).
  exfalso. now apply Hintr.
Qed.

Lemma malformed_intrinsics_raise_witness :
  exists msg,
    dense_flow_from_motion (Rank3 [[[2]; [4]]]) [shift_x] [[[1; 0]]]
      identity_camera_motion [3; 1]
    = Raise (ValueError msg).
Proof.
  apply (malformed_intrinsics_raise 1 2); concrete_shape.
  simpl. lia.
Defined.

Lemma camera_flow_extent (P : array2 vec3) points cam f x0 y0 :
  (exists flow, camera_flow P points cam [f; x0; y0] = Ok flow) <->
  (length cam = 12%nat \/ length cam = 10%nat).
Proof.
  unfold camera_flow, _3d_to_pixels.
  destruct cam as [|? [|? [|? [|? [|? [|? [|? [|? [|? [|? [|? [|? [|? ?]]]]]]]]]]]]];
    cbn [slice skipn firstn Nat.sub reshape33 broadcast3 unpack3 bind length];
    (split;
     [ intros [flow Hflow]; first [discriminate Hflow | lia]
     | intros [Hlen|Hlen]; first [discriminate Hlen | lia | eexists; reflexivity] ]).
Qed.

(** X5: on arguments that are well shaped otherwise, the call returns a flow
    exactly when [camera_motion] holds 12 values or 10: the values after the
    ninth are added to the points by broadcasting, which accepts three of
    them or a single one. *)
Theorem camera_motion_extent h w n (depth : array3 R) motions masks cam
  f x0 y0 :
  has_shape3 h w 1 depth ->
  has_shape n 15 motions ->
  has_shape3 n h w masks ->
  (exists flow,
     dense_flow_from_motion (Rank3 depth) motions masks cam [f; x0; y0]
     = Ok flow) <->
  (length cam = 12%nat \/ length cam = 10%nat).
Proof.
  intros Hd Hmo Hma.
  destruct (dense_flow_closed h w n depth motions masks cam f x0 y0 Hd Hmo Hma)
    as (xg & yg & _ & _ & Hflow).
  rewrite Hflow. apply camera_flow_extent.
Qed.

Lemma camera_motion_extent_witness :
  (exists flow,
     dense_flow_from_motion (Rank3 [[[2]; [4]]]) [shift_x] [[[1; 0]]]
       [1; 0; 0; 0; 1; 0; 0; 0; 1; 5] [3; 1; 1]
     = Ok flow) <->
  (length [1; 0; 0; 0; 1; 0; 0; 0; 1; 5] = 12%nat \/
   length [1; 0; 0; 0; 1; 0; 0; 0; 1; 5] = 10%nat).
Proof.
  apply (camera_motion_extent 1 2 1); concrete_shape.
Defined.

Lemma first_channel_nonempty (a : array3 R) :
  Forall (Forall (fun px => px <> [])) a ->
  first_channel (Rank3 a) = Ok (grid_map (hd 0) a).
Proof.
  intros Hne. simpl. unfold grid_map.
  apply mapM_ok. intros row Hrow.
  rewrite Forall_forall in Hne. specialize (Hne row Hrow).
  apply mapM_ok. intros px Hpx.
  rewrite Forall_forall in Hne. specialize (Hne px Hpx).
  destruct px; [congruence | reflexivity].
Qed.

(** X6: of a depth map with several channels only channel 0 is read: the
    call returns what it does on the [[H, W, 1]] map that holds that
    channel. *)
Theorem only_first_depth_channel_is_read (depth : array3 R) motions masks
  cam intr :
  Forall (Forall (fun px => px <> [])) depth ->
  dense_flow_from_motion (Rank3 depth) motions masks cam intr
  = dense_flow_from_motion
      (Rank3 (grid_map (fun px => [hd 0 px]) depth)) motions masks cam intr.
Proof.
  intros Hne. unfold dense_flow_from_motion.
  replace (pixel_points
             (Rank3 (grid_map (fun px => [hd 0 px]) depth)) intr)
    with (pixel_points (Rank3 depth) intr); trivial.
  unfold pixel_points.
  rewrite (first_channel_nonempty depth Hne).
  rewrite first_channel_nonempty.
  - rewrite grid_map_map. cbn [hd].
    replace (shape_hw (Rank3 (grid_map (fun px => [hd 0 px]) depth)))
      with (shape_hw (Rank3 depth)); trivial.
    unfold shape_hw, grid_map.
    destruct depth as [|row depth]; simpl; rewrite ?length_map; reflexivity.
  - unfold grid_map. apply Forall_map, Forall_forall. intros row _.
    apply Forall_map, Forall_forall. intros px _. discriminate.
Qed.

Lemma only_first_depth_channel_is_read_witness :
  dense_flow_from_motion (Rank3 [[[2; 7; 7]; [4; 9; 9]]]) [shift_x] [[[1; 0]]]
    identity_camera_motion [3; 1; 1]
  = dense_flow_from_motion
      (Rank3 (grid_map (fun px => [hd 0 px]) [[[2; 7; 7]; [4; 9; 9]]]))
      [shift_x] [[[1; 0]]] identity_camera_motion [3; 1; 1].
Proof.
  apply only_first_depth_channel_is_read.
  repeat constructor; discriminate.
Defined.

(** ** Pixel grid and point field *)

Lemma grid_get_meshgrid {A : Type} (xr yr : list A) i j x y :
  nth_error xr j = Some x -> nth_error yr i = Some y ->
  grid_get (fst (meshgrid xr yr)) i j = Some x /\
  grid_get (snd (meshgrid xr yr)) i j = Some y.
Proof.
  intros Hx Hy. unfold meshgrid, grid_get; simpl.
  rewrite !nth_error_map, Hy. simpl. split; trivial.
  now rewrite nth_error_map, Hx.
Qed.

Lemma nth_error_pixels n k :
  (k < n)%nat -> nth_error (map INR (seq 0 n)) k = Some (INR k).
Proof.
  intros Hk. rewrite nth_error_map.
  rewrite (nth_error_nth' (seq 0 n) 0%nat) by (rewrite length_seq; exact Hk).
  now rewrite seq_nth.
Qed.

(** X7: the pixel of row [i] and column [j] has coordinates [(x, y) = (j, i)];
    with a focal length that is not zero and depth [d] there, it is
    back-projected to [((j - x0) * d / f, (i - y0) * d / f, d)]. *)
Theorem pixel_points_entries h w (depth : array3 R) f x0 y0 :
  has_shape3 h w 1 depth ->
  f <> 0 ->
  exists points P,
    pixel_points (Rank3 depth) [f; x0; y0] = Ok (points, P) /\
    forall i j d,
      grid_get depth i j = Some [d] ->
      grid_get points i j = Some (Fin (INR j), Fin (INR i)) /\
      grid_get P i j
      = Some (Fin ((INR j - x0) * (d / f)), Fin ((INR i - y0) * (d / f)),
              Fin d).
Proof.
  intros Hd Hf.
  unfold pixel_points. cbn [shape_hw].
  rewrite (first_channel_rank3 h w depth Hd). cbn [bind].
  rewrite !linspace_pixels, meshgrid_map, _pixels_to_3d_intrinsics.
  cbn [bind]. eexists. eexists. split; [reflexivity|].
  intros i j d Hget.
  assert (Hin : (i < length depth)%nat /\ (j < length (hd [] depth))%nat).
  { unfold grid_get in Hget.
    destruct (nth_error depth i) as [row|] eqn:Erow; [|discriminate].
    assert (Hi : (i < length depth)%nat)
      by (apply nth_error_Some; congruence).
    assert (Hj : (j < length row)%nat)
      by (apply nth_error_Some; congruence).
    destruct Hd as [_ Hrows]. rewrite Forall_forall in Hrows.
    destruct (Hrows row (nth_error_In _ _ Erow)) as [Hw _].
    destruct depth as [|row0 depth']; [simpl in Hi; lia|].
    destruct (Hrows row0 (or_introl eq_refl)) as [Hw0 _].
    simpl. split; [exact Hi | lia]. }
  destruct Hin as [Hi Hj].
  destruct (grid_get_meshgrid (map INR (seq 0 (length (hd [] depth))))
              (map INR (seq 0 (length depth))) i j (INR j) (INR i)
              (nth_error_pixels _ _ Hj) (nth_error_pixels _ _ Hi))
    as [Ex Ey].
  unfold stack2, stack3. grid_gets. rewrite Ex, Ey, Hget. simpl.
  destruct (Req_dec_T f 0) as [|_]; [contradiction|]. split; reflexivity.
Qed.

Lemma pixel_points_entries_witness :
  exists points P,
    pixel_points (Rank3 [[[2]; [4]]]) [3; 1; 1] = Ok (points, P) /\
    forall i j d,
      grid_get [[[2]; [4]]] i j = Some [d] ->
      grid_get points i j = Some (Fin (INR j), Fin (INR i)) /\
      grid_get P i j
      = Some (Fin ((INR j - 1) * (d / 3)), Fin ((INR i - 1) * (d / 3)),
              Fin d).
Proof.
  apply (pixel_points_entries 1 2); concrete_shape.
Defined.

(** ** Entries of the depth map *)

Lemma has_shape_outer {A : Type} h w c (a : array3 A) :
  has_shape3 h w c a -> has_shape h w a.
Proof.
  intros [Hh Hrows]. split; trivial.
  eapply Forall_impl; [|exact Hrows]. now intros row [Hw _].
Qed.

Lemma grid_get_depth h w (depth : array3 R) i j :
  has_shape3 h w 1 depth -> (i < h)%nat -> (j < w)%nat ->
  exists d, grid_get depth i j = Some [d].
Proof.
  intros Hd Hi Hj.
  destruct (grid_get_some h w depth i j (has_shape_outer _ _ _ _ Hd) Hi Hj)
    as [px Epx].
  destruct Hd as [_ Hrows].
  assert (Hlen : length px = 1%nat).
  { unfold grid_get in Epx.
    destruct (nth_error depth i) as [row|] eqn:Erow; [|discriminate].
    rewrite Forall_forall in Hrows.
    destruct (Hrows row (nth_error_In _ _ Erow)) as [_ Hpx].
    rewrite Forall_forall in Hpx. apply Hpx. eapply nth_error_In; exact Epx. }
  destruct px as [|d [|? ?]]; try discriminate. now exists d.
Qed.

Lemma map2_same {A B C D : Type} (f : B -> C -> D) (g : A -> B)
  (k : A -> C) (l : list A) :
  map2 f (map g l) (map k l) = map (fun x => f (g x) (k x)) l.
Proof. induction l as [|x l IH]; simpl; [reflexivity | now rewrite IH]. Qed.

Lemma grid_map2_same {A B C D : Type} (f : B -> C -> D) (g : A -> B)
  (k : A -> C) (a : array2 A) :
  grid_map2 f (grid_map g a) (grid_map k a)
  = grid_map (fun x => f (g x) (k x)) a.
Proof.
  unfold grid_map2, grid_map.
  induction a as [|r a IH]; simpl; [reflexivity|].
  now rewrite map2_same, IH.
Qed.

Lemma _3d_to_pixels_pointwise (points : array2 vec3) f x0 y0 :
  _3d_to_pixels points [f; x0; y0]
  = Ok (grid_map (fun p : vec3 =>
                    fadd (fdiv (fmul (Fin f) (fst (fst p))) (snd p)) (Fin x0))
          points,
        grid_map (fun p : vec3 =>
                    fadd (fdiv (fmul (Fin f) (snd (fst p))) (snd p)) (Fin y0))
          points).
Proof.
  unfold _3d_to_pixels. cbn [unpack3 bind].
  now rewrite !grid_map_map, !grid_map2_same, !grid_map_map.
Qed.

(** ** A focal length of zero *)

Lemma non_finite_point_step h w (object : list R * array2 R) :
  has_shape h w (snd object) ->
  spec_object_step (repeat (repeat (NonFinite, NonFinite, NonFinite) w) h)
    object
  = repeat (repeat (NonFinite, NonFinite, NonFinite) w) h.
Proof.
  destruct object as [mo k]. simpl. intros Hk. unfold spec_object_step.
  apply (grid_ext h w);
    [ apply has_shape_grid_map2; [exact Hk | apply has_shape_repeat]
    | apply has_shape_repeat |].
  intros i j Hi Hj. grid_gets. rewrite grid_get_repeat by assumption.
  destruct (grid_get_some h w k i j Hk Hi Hj) as [mv Ek]. rewrite Ek.
  destruct (rotation_of mo) as [[[[r11 r12] r13] [[r21 r22] r23]]
                                  [[r31 r32] r33]].
  destruct (translation_of mo) as [[t1 t2] t3].
  destruct (pivot_of mo) as [[c1 c2] c3].
  reflexivity.
Qed.

Lemma non_finite_points_stay h w (objects : list (list R * array2 R)) :
  Forall (fun object => has_shape h w (snd object)) objects ->
  fold_left spec_object_step objects
    (repeat (repeat (NonFinite, NonFinite, NonFinite) w) h)
  = repeat (repeat (NonFinite, NonFinite, NonFinite) w) h.
Proof.
  induction 1 as [|object objects Ho _ IH]; simpl; [reflexivity|].
  now rewrite (non_finite_point_step h w object Ho).
Qed.

Lemma zero_focal_length_field h w (xg yg d : array2 R) x0 y0 :
  has_shape h w xg -> has_shape h w yg -> has_shape h w d ->
  grid_map taint (initial_point_field xg yg d 0 x0 y0)
  = repeat (repeat (NonFinite, NonFinite, NonFinite) w) h.
Proof.
  intros Hx Hy Hd.
  apply (grid_ext h w);
    [ unfold initial_point_field, stack3; grid_shapes
    | apply has_shape_repeat |].
  intros i j Hi Hj. unfold initial_point_field, stack3. grid_gets.
  rewrite grid_get_repeat by assumption.
  destruct (grid_get_some h w xg i j Hx Hi Hj) as [xv Ex].
  destruct (grid_get_some h w yg i j Hy Hi Hj) as [yv Ey].
  destruct (grid_get_some h w d i j Hd Hi Hj) as [dv Ed].
  rewrite Ex, Ey, Ed. simpl.
  destruct (Req_dec_T 0 0) as [_|E]; [reflexivity | now contradiction E].
Qed.

Lemma camera_flow_of_non_finite_points h w points cam f x0 y0 :
  has_shape h w points ->
  length cam = 12%nat \/ length cam = 10%nat ->
  camera_flow (repeat (repeat (NonFinite, NonFinite, NonFinite) w) h)
    points cam [f; x0; y0]
  = Ok (astype float32 (non_finite_flow h w)).
Proof.
  intros Hp Hcam.
  assert (E : exists rot t, reshape33 (slice 0 9 cam) = Ok rot /\
                            broadcast3 (skipn 9 cam) = Ok t).
  { destruct Hcam as [Hcam|Hcam];
      repeat (destruct cam as [|? cam]; try discriminate);
      eexists; eexists; split; reflexivity. }
  destruct E as (rot & t & Er & Et).
  unfold camera_flow. rewrite Er, Et. cbn [bind].
  rewrite _3d_to_pixels_pointwise. cbn [bind].
  unfold astype. do 2 f_equal.
  apply (grid_ext h w);
    [ unfold stack2, add_vec, dot; grid_shapes; apply has_shape_repeat
    | apply has_shape_repeat |].
  intros i j Hi Hj. unfold stack2, add_vec, dot, non_finite_flow. grid_gets.
  rewrite !grid_get_repeat by assumption.
  destruct (grid_get_some h w points i j Hp Hi Hj) as [[px py] Epx].
  rewrite Epx.
  destruct rot as [[[[r11 r12] r13] [[r21 r22] r23]] [[r31 r32] r33]].
  destruct t as [[t1 t2] t3].
  reflexivity.
Qed.

(** X15: with a focal length of zero, a well-shaped call returns a flow that
    is not finite in either component at any pixel, whatever the depths, the
    objects and the camera motion are. *)
Theorem zero_focal_length_flow h w n (depth : array3 R) motions masks cam
  x0 y0 :
  has_shape3 h w 1 depth ->
  has_shape n 15 motions ->
  has_shape3 n h w masks ->
  length cam = 12%nat \/ length cam = 10%nat ->
  dense_flow_from_motion (Rank3 depth) motions masks cam [0; x0; y0]
  = Ok (astype float32 (non_finite_flow h w)).
Proof.
  intros Hd Hmo Hma Hcam.
  destruct (dense_flow_closed h w n depth motions masks cam 0 x0 y0
              Hd Hmo Hma) as (xg & yg & Hx & Hy & Hflow).
  rewrite Hflow. clear Hflow.
  pose proof (has_shape_first_channel h w depth Hd) as Hd2.
  unfold spec_apply_objects.
  rewrite <- later_stages_taint.
  rewrite (zero_focal_length_field h w); trivial.
  rewrite (non_finite_points_stay h w).
  - apply camera_flow_of_non_finite_points; [|exact Hcam].
    unfold stack2. grid_shapes.
  - destruct Hma as [_ Hma]. clear - Hma.
    revert motions. induction Hma as [|k ks Hk _ IH]; intros [|mo mos];
      simpl; constructor; [exact Hk | apply IH].
Qed.

Lemma zero_focal_length_flow_witness :
  dense_flow_from_motion (Rank3 [[[2]; [4]]]) [shift_x] [[[1; 0]]]
    identity_camera_motion [0; 1; 1]
  = Ok (astype float32 (non_finite_flow 1 2)).
Proof.
  apply (zero_focal_length_flow 1 2 1); try (left; reflexivity);
    concrete_shape.
Defined.

(** ** The evaluation entry point on boxes and motions *)

(** X16: [evaluate] returns no report, whatever its arguments and the IoU
    collaborator are: each call ends in an exception. *)
Theorem evaluate_never_returns (iou_fn : BoxList -> BoxList -> array2 R)
  (gt_boxes gt_motions detected_boxes detected_motions : array2 R)
  (threshold : R) (report : error_report) :
  evaluate iou_fn gt_boxes gt_motions detected_boxes detected_motions threshold
  <> Ok report.
Proof.
  unfold evaluate.
  destruct (evaluate_matched iou_fn gt_boxes gt_motions detected_boxes
              detected_motions threshold) as [[pred target]|e]; cbn [bind].
  - apply motion_errors_never_returns.
  - discriminate.
Qed.

Lemma reshape_n33_length (n : nat) :
  forall (a : list R) (ms : list (m3 R)),
    (length a <= n)%nat -> reshape_n33 a = Ok ms ->
    length a = (9 * length ms)%nat.
Proof.
  induction n as [|n IH]; intros a ms Hn H.
  - destruct a; [|simpl in Hn; lia]. simpl in H. now injection H as <-.
  - destruct a as [|a1 [|a2 [|a3 [|a4 [|a5 [|a6 [|a7 [|a8 [|a9 t]]]]]]]]];
      try discriminate H.
    + simpl in H. now injection H as <-.
    + simpl in H. destruct (reshape_n33 t) as [rest|e] eqn:E;
        cbn [bind] in H; [|discriminate H].
      injection H as <-. simpl in Hn. simpl length.
      rewrite (IH t rest); [lia | lia | exact E].
Qed.

Lemma reshape_n33_raises (n : nat) :
  forall (a : list R) (e : exn),
    (length a <= n)%nat -> reshape_n33 a = Raise e -> e = reshape_error.
Proof.
  induction n as [|n IH]; intros a e Hn H.
  - destruct a; [discriminate H | simpl in Hn; lia].
  - destruct a as [|a1 [|a2 [|a3 [|a4 [|a5 [|a6 [|a7 [|a8 [|a9 t]]]]]]]]];
      simpl in H; try (now injection H as <-); try discriminate H.
    destruct (reshape_n33 t) as [rest|e'] eqn:E; cbn [bind] in H;
      [discriminate H|].
    injection H as <-. apply (IH t); [simpl in Hn; lia | exact E].
Qed.

Lemma length_concat_columns (k : nat) (rows : array2 R) :
  Forall (fun row => length row = k) rows ->
  length (concat (columns 0 9 rows)) = (Nat.min 9 k * length rows)%nat.
Proof.
  induction 1 as [|row rows Hrow _ IH]; [simpl; lia|].
  cbn [columns map concat length]. rewrite length_app.
  unfold columns in IH. rewrite IH. unfold slice. cbn [skipn Nat.sub].
  rewrite length_firstn, Hrow. ring.
Qed.

(** The rotation blocks of [k >= 1] rows of 15 values and of as many rows of
    4 values cannot be paired. *)
Lemma motion_errors_on_boxes (pred target : array2 R) :
  pred <> [] ->
  length pred = length target ->
  Forall (fun row => length row = 15%nat) pred ->
  Forall (fun row => length row = 4%nat) target ->
  exists msg, _motion_errors pred target = Raise (ValueError msg).
Proof.
  intros Hne Hlen Hp Ht.
  pose proof (length_concat_columns 15 pred Hp) as Lp.
  pose proof (length_concat_columns 4 target Ht) as Lt.
  change (Nat.min 9 15) with 9%nat in Lp.
  change (Nat.min 9 4) with 4%nat in Lt.
  assert (Hk : (0 < length pred)%nat) by (destruct pred; simpl; [congruence|lia]).
  unfold _motion_errors.
  destruct (reshape_n33 (concat (columns 0 9 pred))) as [rot|e] eqn:Er;
    cbn [bind].
  2:{ apply reshape_n33_raises with (n := length (concat (columns 0 9 pred)))
        in Er; [|lia].
      subst e. eexists. reflexivity. }
  destruct (reshape_n33 (concat (columns 0 9 target))) as [gt_rot|e] eqn:Eg;
    cbn [bind].
  2:{ apply reshape_n33_raises with (n := length (concat (columns 0 9 target)))
        in Eg; [|lia].
      subst e. eexists. reflexivity. }
  apply reshape_n33_length with (n := length (concat (columns 0 9 pred)))
    in Er; [|lia].
  apply reshape_n33_length with (n := length (concat (columns 0 9 target)))
    in Eg; [|lia].
  assert (Hrot : length rot = length pred) by lia.
  assert (Hgt : (9 * length gt_rot = 4 * length pred)%nat) by lia.
  unfold broadcast_zip at 1. rewrite length_map.
  destruct (Nat.eqb_spec (length rot) (length gt_rot)) as [E|_]; [lia|].
  destruct rot as [|a [|b rot]]; simpl in Hrot; [lia | lia |].
  destruct gt_rot as [|g [|g' gt_rot]]; simpl in Hgt; [| lia |];
    cbn [map bind]; eexists; reflexivity.
Qed.

(** X17: on arguments of the announced shapes ([D] detections and [G] ground
    truths, motions of 15 values, boxes of 4 values, an IoU matrix of shape
    [[D, G]]), [evaluate] raises a [ValueError]: without a surviving
    detection from [np.stack], with one from the reshaping or pairing of the
    rotation blocks, the targets being rows of box coordinates.  The call of
    [np.norm] is not reached. *)
Theorem evaluate_raises_value_error
  (iou_fn : BoxList -> BoxList -> array2 R)
  (gt_boxes gt_motions detected_boxes detected_motions : array2 R)
  (threshold : R) (G : nat) :
  has_shape (length detected_boxes) G
    (iou_fn (mk_BoxList detected_boxes) (mk_BoxList gt_boxes)) ->
  has_shape (length detected_boxes) 15 detected_motions ->
  has_shape G 4 gt_boxes ->
  exists msg,
    evaluate iou_fn gt_boxes gt_motions detected_boxes detected_motions
      threshold
    = Raise (ValueError msg).
Proof.
  intros Hshape [Hdm Hrows15] [Hgt Hrows4].
  unfold evaluate, evaluate_matched, num_boxes. cbn [get].
  set (iou := iou_fn (mk_BoxList detected_boxes) (mk_BoxList gt_boxes)) in *.
  destruct (Nat.eq_dec G 0) as [->|HG].
  - destruct Hshape as [HD Hrows].
    destruct iou as [|row iou'].
    + simpl in HD. rewrite <- HD. eexists. reflexivity.
    + inversion Hrows as [|? ? Hrow _]; subst.
      destruct row; [|discriminate]. eexists. reflexivity.
  - pose proof (rows_not_empty _ G iou Hshape ltac:(lia)) as Hrows.
    destruct Hshape as [HD Hw]. rewrite <- HD.
    assert (Hin : forall i j, survives iou threshold i j ->
                    (i < length detected_motions)%nat /\
                    (j < length gt_boxes)%nat).
    { intros i j (Hi & (Hj & _) & _). split; [lia|].
      rewrite Forall_forall in Hw.
      rewrite (Hw (nth i iou [])) in Hj by (apply nth_In; lia). lia. }
    rewrite matching_closed; trivial. cbn [bind].
    destruct (matched_pairs iou threshold (length iou)) as [|pr prs] eqn:E.
    + eexists. reflexivity.
    + assert (Hall : forall i j, In (i, j) (pr :: prs) ->
                       (i < length detected_motions)%nat /\
                       (j < length gt_boxes)%nat).
      { intros i j Hij. apply Hin. apply matched_pairs_survive; trivial.
        now rewrite E. }
      clear E. cbn [map stack0 bind].
      change (nth (fst pr) detected_motions []
                :: map (fun p => nth (fst p) detected_motions []) prs)
        with (map (fun p : nat * nat => nth (fst p) detected_motions [])
                (pr :: prs)).
      change (nth (snd pr) gt_boxes []
                :: map (fun p => nth (snd p) gt_boxes []) prs)
        with (map (fun p : nat * nat => nth (snd p) gt_boxes []) (pr :: prs)).
      apply motion_errors_on_boxes.
      * discriminate.
      * now rewrite !length_map.
      * apply Forall_map, Forall_forall. intros [i j] Hij. simpl.
        rewrite Forall_forall in Hrows15. apply Hrows15, nth_In.
        now apply (Hall i j).
      * apply Forall_map, Forall_forall. intros [i j] Hij. simpl.
        rewrite Forall_forall in Hrows4. apply Hrows4, nth_In.
        now apply (Hall i j).
Qed.

Lemma evaluate_raises_value_error_witness :
  exists msg,
    evaluate (fun _ _ => [[1]]) [[0; 0; 1; 1]] [identity_motion]
      [[0; 0; 1; 1]] [shift_x] (1 / 2)
    = Raise (ValueError msg).
Proof.
  apply (evaluate_raises_value_error (fun _ _ => [[1]]) _ _ _ _ _ 1);
    concrete_shape.
Defined.

(** ** The box matcher and its threshold *)

Lemma matched_pairs_threshold (iou : array2 R) (t1 t2 : R) (n : nat) :
  t1 <= t2 ->
  incl (matched_pairs iou t2 n) (matched_pairs iou t1 n) /\
  (length (matched_pairs iou t2 n) <= length (matched_pairs iou t1 n))%nat.
Proof.
  intros Ht. split.
  - intros [i j] Hij. apply in_matched_pairs in Hij.
    destruct Hij as (Hi & Hj & Hge). apply in_matched_pairs.
    repeat split; trivial. lra.
  - induction n as [|n IH]; [reflexivity|].
    rewrite !matched_pairs_S, !length_app.
    destruct (Rge_dec (entry iou n (best_gt (nth n iou []))) t2) as [H2|H2],
             (Rge_dec (entry iou n (best_gt (nth n iou []))) t1) as [H1|H1];
      simpl; try lia.
    exfalso. apply H1. lra.
Qed.

(** X18: raising the threshold only removes matches.  For thresholds
    [t1 <= t2] on one IoU matrix of [D >= 0] rows and [G >= 1] columns, both
    runs of the matcher return, every motion and every target row emitted
    under [t2] is emitted under [t1], and the lists under [t2] are not
    longer. *)
Theorem higher_threshold_removes_matches D G
  (iou gt_boxes detected_motions : array2 R) (t1 t2 : R) :
  has_shape D G iou ->
  (0 < G)%nat ->
  length detected_motions = D ->
  length gt_boxes = G ->
  t1 <= t2 ->
  exists pred1 target1 pred2 target2,
    matching iou gt_boxes detected_motions D t1 = Ok (pred1, target1) /\
    matching iou gt_boxes detected_motions D t2 = Ok (pred2, target2) /\
    incl pred2 pred1 /\ incl target2 target1 /\
    (length pred2 <= length pred1)%nat /\
    (length target2 <= length target1)%nat.
Proof.
  intros Hiou HG Hdm Hgt Ht.
  pose proof (rows_not_empty D G iou Hiou HG) as Hrows.
  destruct Hiou as [HD Hw].
  assert (Hin : forall t i j, survives iou t i j ->
                  (i < length detected_motions)%nat /\
                  (j < length gt_boxes)%nat).
  { intros t i j (Hi & (Hj & _) & _). split; [lia|].
    rewrite Forall_forall in Hw.
    rewrite (Hw (nth i iou [])) in Hj by (apply nth_In; lia). lia. }
  destruct (matched_pairs_threshold iou t1 t2 (length iou) Ht) as [Hincl Hlen].
  do 4 eexists. rewrite <- HD.
  split; [apply matching_closed; [exact Hrows | exact (Hin t1)]|].
  split; [apply matching_closed; [exact Hrows | exact (Hin t2)]|].
  rewrite !length_map.
  repeat split; trivial; now apply incl_map.
Qed.

Lemma higher_threshold_removes_matches_witness :
  exists pred1 target1 pred2 target2,
    matching [[1 / 2]; [1]] [[0; 0; 1; 1]] [shift_x; turn_z] 2 (1 / 4)
    = Ok (pred1, target1) /\
    matching [[1 / 2]; [1]] [[0; 0; 1; 1]] [shift_x; turn_z] 2 (3 / 4)
    = Ok (pred2, target2) /\
    incl pred2 pred1 /\ incl target2 target1 /\
    (length pred2 <= length pred1)%nat /\
    (length target2 <= length target1)%nat.
Proof.
  apply (higher_threshold_removes_matches 2 1); concrete_shape.
Defined.

Lemma map_nth_seq {A : Type} (l : list A) (d : A) :
  map (fun i => nth i l d) (seq 0 (length l)) = l.
Proof.
  induction l as [|a l IH]; [reflexivity|].
  cbn [length]. rewrite <- cons_seq, <- seq_shift, map_cons, map_map.
  simpl. now rewrite IH.
Qed.

Lemma matched_pairs_all (iou : array2 R) (thr : R) (n : nat) :
  (forall i, (i < n)%nat -> entry iou i (best_gt (nth i iou [])) >= thr) ->
  matched_pairs iou thr n
  = map (fun i => (i, best_gt (nth i iou []))) (seq 0 n).
Proof.
  induction n as [|n IH]; intros Hge; [reflexivity|].
  rewrite matched_pairs_S, seq_S, map_app, IH by (intros; apply Hge; lia).
  destruct (Rge_dec (entry iou n (best_gt (nth n iou []))) thr) as [_|H];
    [reflexivity|].
  exfalso. apply H, Hge. lia.
Qed.

(** X19: when every detection overlaps some ground truth by the threshold at
    least, no detection is dropped: the matched motions are
    [detected_motions] itself, and the targets are, row by row, the box of
    the first best ground truth. *)
Theorem every_detection_matched D G
  (iou gt_boxes detected_motions : array2 R) (threshold : R) :
  has_shape D G iou ->
  length detected_motions = D ->
  length gt_boxes = G ->
  (forall i, (i < D)%nat ->
             exists j, (j < G)%nat /\ entry iou i j >= threshold) ->
  matching iou gt_boxes detected_motions D threshold
  = Ok (detected_motions,
        map (fun row => nth (best_gt row) gt_boxes []) iou).
Proof.
  intros [HD Hw] Hdm Hgt Hall.
  assert (Hrows : Forall (fun row => row <> []) iou).
  { apply Forall_forall. intros row Hrow.
    destruct (In_nth _ _ [] Hrow) as (i & Hi & <-).
    destruct (Hall i ltac:(lia)) as (j & Hj & _).
    rewrite Forall_forall in Hw.
    pose proof (Hw (nth i iou []) (nth_In _ _ Hi)) as Hlen.
    intros E. rewrite E in Hlen. simpl in Hlen. lia. }
  assert (Hin : forall i j, survives iou threshold i j ->
                  (i < length detected_motions)%nat /\
                  (j < length gt_boxes)%nat).
  { intros i j (Hi & (Hj & _) & _). split; [lia|].
    rewrite Forall_forall in Hw.
    rewrite (Hw (nth i iou [])) in Hj by (apply nth_In; lia). lia. }
  rewrite <- HD, matching_closed by trivial.
  rewrite matched_pairs_all.
  - rewrite !map_map. cbn [fst snd].
    rewrite <- Hdm in HD. rewrite HD. rewrite map_nth_seq.
    rewrite <- HD.
    rewrite <- (map_map (fun i => nth i iou [])
                  (fun row => nth (best_gt row) gt_boxes [])).
    now rewrite map_nth_seq.
  - intros i Hi. destruct (Hall i ltac:(lia)) as (j & Hj & Hge).
    rewrite Forall_forall in Hrows, Hw.
    pose proof (nth_In iou [] Hi) as Hrow.
    destruct (best_gt_correct _ (Hrows _ Hrow)) as (_ & Hmax & _).
    rewrite (Hw _ Hrow) in Hmax. pose proof (Hmax j Hj) as Hle.
    unfold entry in *. lra.
Qed.

Lemma every_detection_matched_witness :
  matching [[1 / 2]; [1]] [[0; 0; 1; 1]] [shift_x; turn_z] 2 (1 / 4)
  = Ok ([shift_x; turn_z],
        map (fun row => nth (best_gt row) [[0; 0; 1; 1]] [])
          [[1 / 2]; [1]]).
Proof.
  apply (every_detection_matched 2 1);
    [concrete_shape | reflexivity | reflexivity |].
  intros i Hi. exists 0%nat. split; [lia|].
  destruct i as [|[|i]]; [| | lia]; unfold entry; simpl; lra.
Defined.

(** ** The flow, pixel by pixel *)

Lemma grid_get_entry h w (k : array2 R) i j :
  has_shape h w k -> (i < h)%nat -> (j < w)%nat ->
  grid_get k i j = Some (entry k i j).
Proof.
  intros Hk Hi Hj.
  destruct (grid_get_some h w k i j Hk Hi Hj) as [v Ev]. rewrite Ev.
  unfold grid_get in Ev.
  destruct (nth_error k i) as [row|] eqn:Erow; [|discriminate].
  unfold entry.
  now rewrite (nth_error_nth _ _ [] Erow), (nth_error_nth _ _ 0 Ev).
Qed.

Lemma grid_get_objects h w i j :
  (i < h)%nat -> (j < w)%nat ->
  forall (motions : array2 R) (masks : array3 R) (P : array2 vec3) (p : vec3),
    Forall (has_shape h w) masks -> has_shape h w P ->
    grid_get P i j = Some p ->
    grid_get (fold_left spec_object_step (combine motions masks) P) i j
    = Some (fold_left object_step_at
              (combine motions (map (fun m => entry m i j) masks)) p).
Proof.
  intros Hi Hj.
  induction motions as [|mo mos IH]; intros [|k ks] P p Hm HP Hp; simpl;
    trivial.
  inversion Hm as [|? ? Hk Hks]; subst.
  apply IH; trivial; [now apply has_shape_spec_object_step|].
  unfold spec_object_step.
  now rewrite grid_get_map2, (grid_get_entry h w k i j Hk Hi Hj), Hp.
Qed.

Lemma dense_flow_pointwise h w n (depth : array3 R) motions masks cam
  rot_cam trans_cam f x0 y0 :
  has_shape3 h w 1 depth ->
  has_shape n 15 motions ->
  has_shape3 n h w masks ->
  reshape33 (slice 0 9 cam) = Ok rot_cam ->
  broadcast3 (skipn 9 cam) = Ok trans_cam ->
  exists flow,
    dense_flow_from_motion (Rank3 depth) motions masks cam [f; x0; y0]
    = Ok (astype float32 flow) /\
    has_shape h w flow /\
    forall i j d,
      grid_get depth i j = Some [d] ->
      grid_get flow i j
      = Some (flow_at i j d motions (map (fun m => entry m i j) masks)
                rot_cam trans_cam f x0 y0).
Proof.
  intros Hd [Hn Hmo] [Hn' Hma] Er Et.
  pose proof (has_shape_first_channel h w depth Hd) as Hd2.
  pose proof (has_shape_outer _ _ _ _ Hd) as Hd3.
  assert (Hh : length depth = h) by apply Hd.
  assert (Hw : (0 < h)%nat -> length (hd [] depth) = w).
  { destruct Hd as [_ Hrows]. destruct depth as [|row depth'].
    - simpl in Hh. lia.
    - intros _. inversion Hrows as [|? ? [Hrow _] _]. exact Hrow. }
  set (xr := map INR (seq 0 (length (hd [] depth)))).
  set (yr := map INR (seq 0 (length depth))).
  assert (Hgrids : has_shape h w (fst (meshgrid xr yr)) /\
                   has_shape h w (snd (meshgrid xr yr))).
  { destruct (Nat.eq_dec h 0) as [->|Hpos].
    - destruct depth; [|discriminate]. split; apply has_shape_nil.
    - assert (Lx : length xr = w)
        by (unfold xr; rewrite length_map, length_seq; apply Hw; lia).
      assert (Ly : length yr = h)
        by (unfold yr; now rewrite length_map, length_seq).
      pose proof (has_shape_meshgrid xr yr) as Hm.
      rewrite Lx, Ly in Hm. exact Hm. }
  destruct Hgrids as [Hx Hy].
  unfold dense_flow_from_motion, pixel_points. cbn [shape_hw].
  rewrite (first_channel_rank3 h w depth Hd). cbn [bind].
  rewrite !linspace_pixels, meshgrid_map, _pixels_to_3d_intrinsics.
  fold xr yr. cbn [bind].
  fold (initial_point_field (fst (meshgrid xr yr)) (snd (meshgrid xr yr))
          (grid_map (hd 0) depth) f x0 y0).
  rewrite (apply_objects_closed h w); trivial;
    [| congruence | now apply has_shape_initial_point_field ].
  unfold camera_flow. rewrite Er, Et. cbn [bind].
  rewrite _3d_to_pixels_pointwise. cbn [bind].
  eexists. split; [reflexivity|].
  assert (HP : has_shape h w
                 (spec_apply_objects motions masks
                    (initial_point_field (fst (meshgrid xr yr))
                       (snd (meshgrid xr yr)) (grid_map (hd 0) depth)
                       f x0 y0))).
  { apply has_shape_spec_apply_objects; trivial.
    now apply has_shape_initial_point_field. }
  split; [unfold stack2, add_vec, dot; grid_shapes|].
  intros i j d Hget.
  assert (Hin : (i < h)%nat /\ (j < w)%nat).
  { unfold grid_get in Hget.
    destruct (nth_error depth i) as [row|] eqn:Erow; [|discriminate].
    assert (Hi : (i < length depth)%nat)
      by (apply nth_error_Some; congruence).
    assert (Hj : (j < length row)%nat)
      by (apply nth_error_Some; congruence).
    destruct Hd as [_ Hrows]. rewrite Forall_forall in Hrows.
    destruct (Hrows row (nth_error_In _ _ Erow)) as [Hrow _]. lia. }
  destruct Hin as [Hi Hj].
  destruct (grid_get_meshgrid xr yr i j (INR j) (INR i)) as [Ex Ey].
  { unfold xr. rewrite Hw by lia. now apply nth_error_pixels. }
  { unfold yr. rewrite Hh. now apply nth_error_pixels. }
  unfold stack2, add_vec, dot. grid_gets.
  unfold spec_apply_objects.
  rewrite (grid_get_objects h w i j Hi Hj motions masks _
             (fmul (fsub (Fin (INR j)) (Fin x0)) (fdiv (Fin d) (Fin f)),
              fmul (fsub (Fin (INR i)) (Fin y0)) (fdiv (Fin d) (Fin f)),
              Fin d));
    trivial.
  - rewrite Ex, Ey. reflexivity.
  - now apply has_shape_initial_point_field.
  - unfold initial_point_field, stack3. grid_gets.
    now rewrite Ex, Ey, Hget.
Qed.

(** X25: the flow of a well-shaped call, pixel by pixel: at row [i] and
    column [j] the result holds [flow_at] of the depth and of the mask values
    there: the back-projected pixel, moved by the objects in index order and
    by the camera, projected, minus the pixel.  The result is an
    [[h, w, 2]] array of type [float32]. *)
Theorem flow_of_each_pixel h w n (depth : array3 R) motions masks cam
  rot_cam trans_cam f x0 y0 :
  has_shape3 h w 1 depth ->
  has_shape n 15 motions ->
  has_shape3 n h w masks ->
  reshape33 (slice 0 9 cam) = Ok rot_cam ->
  broadcast3 (skipn 9 cam) = Ok trans_cam ->
  exists flow,
    dense_flow_from_motion (Rank3 depth) motions masks cam [f; x0; y0]
    = Ok (astype float32 flow) /\
    has_shape h w flow /\
    forall i j d,
      grid_get depth i j = Some [d] ->
      grid_get flow i j
      = Some (flow_at i j d motions (map (fun m => entry m i j) masks)
                rot_cam trans_cam f x0 y0).
Proof. apply dense_flow_pointwise. Qed.

Lemma flow_of_each_pixel_witness :
  exists flow,
    dense_flow_from_motion (Rank3 [[[2]; [4]]]) [shift_x] [[[1; 0]]]
      identity_camera_motion [3; 1; 1]
    = Ok (astype float32 flow) /\
    has_shape 1 2 flow /\
    forall i j d,
      grid_get [[[2]; [4]]] i j = Some [d] ->
      grid_get flow i j
      = Some (flow_at i j d [shift_x]
                (map (fun m => entry m i j) [[[1; 0]]])
                identity3 (Fin 0, Fin 0, Fin 0) 3 1 1).
Proof.
  apply (flow_of_each_pixel 1 2 1); try reflexivity; concrete_shape.
Defined.

Lemma camera_motion_blocks (cam : list R) :
  length cam = 12%nat \/ length cam = 10%nat ->
  exists rot_cam trans_cam,
    reshape33 (slice 0 9 cam) = Ok rot_cam /\
    broadcast3 (skipn 9 cam) = Ok trans_cam.
Proof.
  intros [Hcam|Hcam];
    repeat (destruct cam as [|? cam]; try discriminate);
    eexists; eexists; split; reflexivity.
Qed.

(** X26: the flow at a pixel depends on the depth and on the mask values at
    this pixel only: two well-shaped calls with the same motions, camera
    motion and intrinsics, whose depths and masks agree at row [i] and
    column [j], both return, with the same flow there. *)
Theorem flow_is_local h w n (depth depth' : array3 R) motions
  (masks masks' : array3 R) cam f x0 y0 i j :
  has_shape3 h w 1 depth -> has_shape3 h w 1 depth' ->
  has_shape n 15 motions ->
  has_shape3 n h w masks -> has_shape3 n h w masks' ->
  length cam = 12%nat \/ length cam = 10%nat ->
  (i < h)%nat -> (j < w)%nat ->
  grid_get depth i j = grid_get depth' i j ->
  map (fun m => entry m i j) masks = map (fun m => entry m i j) masks' ->
  exists flow flow',
    dense_flow_from_motion (Rank3 depth) motions masks cam [f; x0; y0]
    = Ok (astype float32 flow) /\
    dense_flow_from_motion (Rank3 depth') motions masks' cam [f; x0; y0]
    = Ok (astype float32 flow') /\
    grid_get flow i j = grid_get flow' i j.
Proof.
  intros Hd Hd' Hmo Hma Hma' Hcam Hi Hj Edepth Emasks.
  destruct (camera_motion_blocks cam Hcam) as (rot_cam & trans_cam & Er & Et).
  destruct (dense_flow_pointwise h w n depth motions masks cam rot_cam
              trans_cam f x0 y0 Hd Hmo Hma Er Et) as (fl & E & _ & Hat).
  destruct (dense_flow_pointwise h w n depth' motions masks' cam rot_cam
              trans_cam f x0 y0 Hd' Hmo Hma' Er Et) as (fl' & E' & _ & Hat').
  exists fl, fl'. split; [exact E | split; [exact E'|]].
  destruct (grid_get_depth h w depth i j Hd Hi Hj) as [d Ed].
  rewrite (Hat i j d Ed), (Hat' i j d) by (now rewrite <- Edepth).
  now rewrite Emasks.
Qed.

Lemma flow_is_local_witness :
  exists flow flow',
    dense_flow_from_motion (Rank3 [[[2]; [4]]]) [shift_x] [[[1; 0]]]
      identity_camera_motion [3; 1; 1]
    = Ok (astype float32 flow) /\
    dense_flow_from_motion (Rank3 [[[2]; [5]]]) [shift_x] [[[1; 1]]]
      identity_camera_motion [3; 1; 1]
    = Ok (astype float32 flow') /\
    grid_get flow 0 0 = grid_get flow' 0 0.
Proof.
  apply (flow_is_local 1 2 1); try reflexivity; try (left; reflexivity);
    concrete_shape.
Defined.

(** * One pixel in binary64 arithmetic *)

(** ** The per-pixel computation and the array model *)

Lemma fold_left_map_objects {A B C : Type} (f : A -> B -> A) (g : C -> B)
  (l : list C) (a : A) :
  fold_left f (map g l) a = fold_left (fun a c => f a (g c)) l a.
Proof. revert a. induction l as [|c l IH]; intros a; simpl; trivial. Qed.

(** In the arithmetic of the array model, [pixel_flow] is [flow_at], the
    entry of the array model's result at the pixel. *)
Lemma flow_at_is_pixel_flow (i j : nat) (d : R) (motions : array2 R)
  (ms : list R) (rot_cam : m3 R) (trans_cam : vec3) (f x0 y0 : R) :
  flow_at i j d motions ms rot_cam trans_cam f x0 y0
  = pixel_flow exact_arithmetic i j (Fin d) (objects_at_pixel motions ms)
      (mat3_of rot_cam) trans_cam (Fin f, Fin x0, Fin y0).
Proof.
  unfold flow_at, pixel_flow, objects_at_pixel.
  rewrite fold_left_map_objects.
  cbn [_pixels_to_3d_at exact_arithmetic add_in sub_in mul_in div_in index_in].
  set (p0 := (fmul (fsub (Fin (INR j)) (Fin x0)) (fdiv (Fin d) (Fin f)),
              fmul (fsub (Fin (INR i)) (Fin y0)) (fdiv (Fin d) (Fin f)),
              Fin d)).
  assert (E : fold_left object_step_at (combine motions ms) p0
              = fold_left
                  (fun (a : v3 npfloat) (c : list R * R) =>
                     move_at exact_arithmetic a
                       (mat3_of (rotation_of (fst c)),
                        vec3_of (translation_of (fst c)),
                        vec3_of (pivot_of (fst c)), Fin (snd c)))
                  (combine motions ms) p0).
  { generalize p0. induction (combine motions ms) as [|[mo m] l IH];
      intros p; [reflexivity|]. simpl fold_left. rewrite <- IH. reflexivity. }
  rewrite <- E. unfold camera_at.
  destruct (vadd _ _ _) as [[X Y] Z]. reflexivity.
Qed.

(** ** Facts of IEEE arithmetic *)

Lemma is_zero64_spec (x : PrimFloat.float) :
  is_zero64 x = sf_is_zero (Prim2SF x).
Proof. reflexivity. Qed.

Lemma same_number_spec (a b : PrimFloat.float) :
  same_number a b <-> sf_same (Prim2SF a) (Prim2SF b).
Proof.
  unfold same_number, sf_same, is_zero64. split; intros [H|H]; auto.
  - left. now rewrite H.
  - left. now apply Prim2SF_inj.
Qed.

Lemma same_number_refl (a : PrimFloat.float) : same_number a a.
Proof. now left. Qed.

Lemma same_number_trans (a b c : PrimFloat.float) :
  same_number a b -> same_number b c -> same_number a c.
Proof.
  intros [->|[Ha Hb]] [->|[Hb' Hc]];
    [now left | now right | now right | now right].
Qed.

Lemma same_number_finite (a b : PrimFloat.float) :
  same_number a b -> is_finite64 b = true -> is_finite64 a = true.
Proof.
  intros [->|[Ha _]] Hb; trivial.
  unfold is_finite64, is_zero64 in *. now destruct (Prim2SF a).
Qed.

Lemma same_number_zero (a b : PrimFloat.float) :
  same_number a b -> is_zero64 b = true -> is_zero64 a = true.
Proof. intros [->|[Ha _]] Hb; trivial. Qed.

Lemma same_number_not_zero (a b : PrimFloat.float) :
  same_number a b -> is_zero64 b = false -> a = b.
Proof. intros [->|[_ Hb]] Hz; [reflexivity | congruence]. Qed.

(** Destructs the specifications of the floats of the goal. *)
Ltac spec_cases :=
  repeat match goal with
         | |- context [Prim2SF ?x] =>
             is_var x;
             let s := fresh "s" in
             destruct (Prim2SF x) as [[|]|[|]| |[|] ? ?] eqn:s
         | H : context [Prim2SF ?x] |- _ =>
             is_var x;
             let s := fresh "s" in
             destruct (Prim2SF x) as [[|]|[|]| |[|] ? ?] eqn:s
         end.


Lemma sf_add_zero_same (a z : spec_float) :
  sf_is_zero z = true -> sf_same (SF64add a z) a /\ sf_same (SF64add z a) a.
Proof.
  destruct a as [[|]|[|]| |[|] m e], z as [[|]|[|]| |[|] m' e'];
    try discriminate; intros _; split;
    try (left; reflexivity); right; split; reflexivity.
Qed.

Lemma sf_mul_zero (a z : spec_float) :
  sf_is_zero z = true -> sf_is_finite a = true ->
  sf_is_zero (SF64mul a z) = true /\ sf_is_zero (SF64mul z a) = true.
Proof.
  destruct a as [[|]|[|]| |[|] m e], z as [[|]|[|]| |[|] m' e'];
    try discriminate; intros _ _; split; reflexivity.
Qed.

Lemma sf_sub_zero (a : spec_float) : SF64sub a (S754_zero false) = a.
Proof. destruct a as [[|]|[|]| |[|] m e]; reflexivity. Qed.

Lemma sf_sub_same (a b : spec_float) :
  sf_same a b -> sf_is_finite b = true -> sf_is_zero (SF64sub a b) = true.
Proof.
  intros [->|[Ha Hb]] Hf.
  - destruct b as [[|]|[|]| |s m e]; try discriminate; try reflexivity.
    unfold SF64sub, SFsub. rewrite Z.min_id.
    unfold shl_align. rewrite ?Z.sub_diag. cbn [fst].
    rewrite ?Z.sub_diag. reflexivity.
  - destruct a as [[|]|[|]| |[|] m e], b as [[|]|[|]| |[|] m' e'];
      try discriminate; reflexivity.
Qed.

(** An operation on two zeros and the same third operand gives the same
    number. *)
Lemma sf_same_compat (a b c : spec_float) :
  sf_same a b ->
  sf_same (SF64add a c) (SF64add b c) /\
  sf_same (SF64sub a c) (SF64sub b c) /\
  sf_same (SF64mul c a) (SF64mul c b) /\
  sf_same (SF64div a c) (SF64div b c).
Proof.
  intros [->|[Ha Hb]]; [repeat split; now left|].
  destruct a as [[|]|[|]| |[|] m e]; try discriminate;
    destruct b as [[|]|[|]| |[|] m' e']; try discriminate;
    destruct c as [[|]|[|]| |[|] m'' e'']; repeat split;
    try (left; reflexivity); right; split; reflexivity.
Qed.


Lemma add_zero_same (a z : PrimFloat.float) :
  is_zero64 z = true -> same_number (PrimFloat.add a z) a.
Proof.
  intros Hz. rewrite same_number_spec, add_spec.
  exact (proj1 (sf_add_zero_same _ _ Hz)).
Qed.

Lemma zero_add_same (a z : PrimFloat.float) :
  is_zero64 z = true -> same_number (PrimFloat.add z a) a.
Proof.
  intros Hz. rewrite same_number_spec, add_spec.
  exact (proj2 (sf_add_zero_same _ _ Hz)).
Qed.

Lemma mul_zero_r (a z : PrimFloat.float) :
  is_zero64 z = true -> is_finite64 a = true ->
  is_zero64 (PrimFloat.mul a z) = true.
Proof.
  unfold is_zero64, is_finite64. rewrite mul_spec. intros Hz Ha.
  exact (proj1 (sf_mul_zero _ _ Hz Ha)).
Qed.


Lemma sub_zero (a : PrimFloat.float) : PrimFloat.sub a PrimFloat.zero = a.
Proof. apply Prim2SF_inj. rewrite sub_spec. exact (sf_sub_zero _). Qed.

Lemma sub_same (a b : PrimFloat.float) :
  same_number a b -> is_finite64 b = true ->
  is_zero64 (PrimFloat.sub a b) = true.
Proof.
  rewrite same_number_spec. unfold is_zero64, is_finite64.
  rewrite sub_spec. apply sf_sub_same.
Qed.

Lemma same_number_compat (a b c : PrimFloat.float) :
  same_number a b ->
  same_number (PrimFloat.add a c) (PrimFloat.add b c) /\
  same_number (PrimFloat.sub a c) (PrimFloat.sub b c) /\
  same_number (PrimFloat.mul c a) (PrimFloat.mul c b) /\
  same_number (PrimFloat.div a c) (PrimFloat.div b c).
Proof.
  rewrite !same_number_spec, !add_spec, !sub_spec, !mul_spec, !div_spec.
  apply sf_same_compat.
Qed.

(** ** An object whose mask is zero *)


Section ZeroMask.
Import PrimFloat.



End ZeroMask.

(** ** Objects and a camera that do not move *)

Lemma mul_shift52 (m : positive) :
  Pos.mul m 4503599627370496 = Nat.iter 52 xO m.
Proof. rewrite Pos.mul_comm. reflexivity. Qed.

Lemma digits_shift52 (m : positive) :
  Zpos (digits2_pos (Nat.iter 52 xO m)) = (Zpos (digits2_pos m) + 52)%Z.
Proof.
  cbn [Nat.iter nat_rect digits2_pos]. rewrite !Pos2Z.inj_succ. lia.
Qed.

Lemma shr_shift52 (m : positive) :
  iter_pos shr_1 52 (Build_shr_record (Zpos (Nat.iter 52 xO m)) false false)
  = Build_shr_record (Zpos m) false false.
Proof. reflexivity. Qed.

(** Multiplying a binary64 value by 1 does not round. *)
Lemma sf_mul_one (x : spec_float) :
  valid_binary x = true -> SF64mul x (Prim2SF PrimFloat.one) = x.
Proof.
  change (Prim2SF PrimFloat.one)
    with (S754_finite false 4503599627370496 (-52)).
  destruct x as [s|s| |s m e]; intros Hv; try reflexivity;
    try (cbn; now rewrite xorb_false_r).
  cbn [valid_binary] in Hv. unfold bounded, canonical_mantissa in Hv.
  apply andb_prop in Hv. destruct Hv as [Hc Hb].
  apply Z.eqb_eq in Hc.
  unfold SF64mul, SFmul. rewrite xorb_false_r, mul_shift52.
  unfold binary_round_aux, shr_fexp at 1.
  cbn [Zdigits2 shr_record_of_loc]. rewrite digits_shift52.
  replace (Z.pos (digits2_pos m) + 52 + (e + -52))%Z
    with (Z.pos (digits2_pos m) + e)%Z by lia.
  rewrite Hc. replace (e - (e + -52))%Z with 52%Z by lia.
  cbn [shr]. rewrite shr_shift52.
  cbn [shr_m loc_of_shr_record round_nearest_even].
  unfold shr_fexp. cbn [Zdigits2 shr_record_of_loc].
  replace (e + -52 + 52)%Z with e by lia.
  rewrite Hc, Z.sub_diag. cbn [shr shr_m]. now rewrite Hb.
Qed.

Lemma mul_one (a : PrimFloat.float) : PrimFloat.mul a PrimFloat.one = a.
Proof.
  apply Prim2SF_inj. rewrite mul_spec. apply sf_mul_one, Prim2SF_valid.
Qed.

Lemma is_zero64_zero : is_zero64 PrimFloat.zero = true.
Proof. reflexivity. Qed.

(** One coordinate of line 61 for an object of zero motion: [r] is the
    coordinate after the rotation. *)
Lemma still_coordinate (a r m : PrimFloat.float) :
  same_number r a -> is_finite64 a = true -> is_finite64 m = true ->
  same_number
    (PrimFloat.add a
       (PrimFloat.mul m
          (PrimFloat.sub
             (PrimFloat.add (PrimFloat.add r PrimFloat.zero) PrimFloat.zero)
             a)))
    a.
Proof.
  intros Hr Fa Fm.
  apply add_zero_same, mul_zero_r; [|exact Fm].
  apply sub_same; [|exact Fa].
  eapply same_number_trans; [apply add_zero_same, is_zero64_zero|].
  eapply same_number_trans; [apply add_zero_same, is_zero64_zero|].
  exact Hr.
Qed.

(** The rows of [P.dot(I.T)] on a finite point. *)
Lemma still_rows (a b c : PrimFloat.float) :
  is_finite64 a = true -> is_finite64 b = true -> is_finite64 c = true ->
  same_number
    (PrimFloat.add (PrimFloat.add a (PrimFloat.mul b PrimFloat.zero))
       (PrimFloat.mul c PrimFloat.zero)) a /\
  same_number
    (PrimFloat.add (PrimFloat.add (PrimFloat.mul a PrimFloat.zero) b)
       (PrimFloat.mul c PrimFloat.zero)) b /\
  same_number
    (PrimFloat.add
       (PrimFloat.add (PrimFloat.mul a PrimFloat.zero)
          (PrimFloat.mul b PrimFloat.zero)) c) c.
Proof.
  intros Fa Fb Fc.
  pose proof (mul_zero_r a _ is_zero64_zero Fa) as Za.
  pose proof (mul_zero_r b _ is_zero64_zero Fb) as Zb.
  pose proof (mul_zero_r c _ is_zero64_zero Fc) as Zc.
  repeat split.
  - eapply same_number_trans; [apply add_zero_same, Zc|].
    apply add_zero_same, Zb.
  - eapply same_number_trans; [apply add_zero_same, Zc|].
    apply zero_add_same, Za.
  - apply zero_add_same.
    eapply same_number_zero; [apply add_zero_same, Zb | exact Za].
Qed.

Lemma still_object_keeps (P : v3 PrimFloat.float) (m : PrimFloat.float) :
  finite_point64 P -> is_finite64 m = true ->
  same_point (move_at binary64 P (still_object m)) P.
Proof.
  destruct P as [[a b] c]. intros (Fa & Fb & Fc) Fm.
  unfold still_object, move_at, displacement_at, identity64, zero64.
  cbn [vadd vsub vscale vec_mat vdot transpose binary64 add_in sub_in mul_in
       same_point].
  rewrite !sub_zero, !mul_one.
  destruct (still_rows a b c Fa Fb Fc) as (Ra & Rb & Rc).
  repeat split; apply still_coordinate; assumption.
Qed.

Lemma same_point_finite (P Q : v3 PrimFloat.float) :
  same_point P Q -> finite_point64 Q -> finite_point64 P.
Proof.
  destruct P as [[a b] c], Q as [[x y] z].
  intros (Ha & Hb & Hc) (Fx & Fy & Fz).
  repeat split; eapply same_number_finite; eassumption.
Qed.

Lemma same_point_trans (P Q T : v3 PrimFloat.float) :
  same_point P Q -> same_point Q T -> same_point P T.
Proof.
  destruct P as [[a b] c], Q as [[x y] z], T as [[u v] w].
  intros (Ha & Hb & Hc) (Hx & Hy & Hz).
  repeat split; eapply same_number_trans; eassumption.
Qed.

Lemma same_point_refl (P : v3 PrimFloat.float) : same_point P P.
Proof. destruct P as [[a b] c]. repeat split; apply same_number_refl. Qed.

(** Objects of zero motion, with finite mask values, leave a finite point
    where it is (signs of zeros apart). *)
Lemma still_objects_keep (masks : list PrimFloat.float)
  (P0 : v3 PrimFloat.float) :
  Forall (fun m => is_finite64 m = true) masks ->
  finite_point64 P0 ->
  forall P, same_point P P0 ->
    same_point (fold_left (move_at binary64) (map still_object masks) P) P0.
Proof.
  intros Hm F0. induction Hm as [|m masks Fm _ IH]; intros P HP; [exact HP|].
  cbn [map fold_left]. apply IH.
  eapply same_point_trans; [|exact HP].
  apply still_object_keeps; [|exact Fm].
  eapply same_point_finite; eassumption.
Qed.

(** So does a camera that does not move. *)
Lemma still_camera_keeps (P : v3 PrimFloat.float) :
  finite_point64 P -> same_point (camera_at binary64 P identity64 zero64) P.
Proof.
  destruct P as [[a b] c]. intros (Fa & Fb & Fc).
  unfold camera_at, identity64, zero64.
  cbn [vadd vec_mat vdot transpose binary64 add_in mul_in same_point].
  rewrite !mul_one.
  destruct (still_rows a b c Fa Fb Fc) as (Ra & Rb & Rc).
  repeat split;
    (eapply same_number_trans; [apply add_zero_same, is_zero64_zero|]);
    assumption.
Qed.

(** The projection of two points that are the same apart from signs of
    zeros, at a depth that is not zero. *)
Lemma projection_same (P Q : v3 PrimFloat.float)
  (camera_intrinsics : PrimFloat.float * PrimFloat.float * PrimFloat.float) :
  same_point P Q -> is_zero64 (snd Q) = false ->
  same_number (fst (_3d_to_pixels_at binary64 P camera_intrinsics))
    (fst (_3d_to_pixels_at binary64 Q camera_intrinsics)) /\
  same_number (snd (_3d_to_pixels_at binary64 P camera_intrinsics))
    (snd (_3d_to_pixels_at binary64 Q camera_intrinsics)).
Proof.
  destruct P as [[a b] c], Q as [[x y] z].
  destruct camera_intrinsics as [[f x0] y0].
  intros (Ha & Hb & Hc) Hz. cbn [snd] in Hz.
  rewrite (same_number_not_zero c z Hc Hz).
  cbn [_3d_to_pixels_at fst snd binary64 add_in mul_in div_in].
  split.
  - apply same_number_compat, same_number_compat, same_number_compat, Ha.
  - apply same_number_compat, same_number_compat, same_number_compat, Hb.
Qed.

Lemma astype_float32_same (a b : PrimFloat.float) :
  same_number a b -> sf_same (astype_float32 a) (astype_float32 b).
Proof.
  intros [->|[Ha Hb]]; [now left|]. right.
  unfold astype_float32, is_zero64 in *.
  destruct (Prim2SF a); try discriminate.
  destruct (Prim2SF b); try discriminate. now split.
Qed.

Lemma sf_same_zero (a b : spec_float) :
  sf_same a b -> sf_is_zero b = true -> sf_is_zero a = true.
Proof. intros [->|[Ha _]] Hb; trivial. Qed.

Lemma astype_float32_zero (a : PrimFloat.float) :
  is_zero64 a = true -> sf_is_zero (astype_float32 a) = true.
Proof.
  unfold astype_float32, is_zero64. now destruct (Prim2SF a).
Qed.

Section ZeroMotion.
Import PrimFloat.

(** C3 fails on the code, shown at the pixel [(0, 0)] of a [float64] call
    with one object of zero motion and mask 1, identity camera motion, focal
    length 5 and principal point [(3, 3)].
    - At depth 0 the projection divides 0 by 0: the flow is [(nan, nan)].
    - At depth 1 the round trip of the projection rounds: the flow is
      [(-2^-51, -2^-51)], about [-4.4e-16], also after the conversion to
      [float32]. *)
Lemma zero_motion_flow_is_not_zero :
  (flow32_at 0 0 0 [still_object 1] identity64 zero64 (5, 3, 3)
   = (S754_nan, S754_nan))%float /\
  (flow32_at 0 0 1 [still_object 1] identity64 zero64 (5, 3, 3)
   = (S754_finite true 8388608 (-74), S754_finite true 8388608 (-74)))%float.
Proof. split; vm_compute; reflexivity. Qed.

(** C3, as the code has it, at every pixel of a call on [float64] arrays:
    with objects of identity rotation, zero translation and zero pivot, and
    an identity camera motion, the flow is the difference between the
    projection of the back-projected pixel and the pixel (signs of zeros
    apart), whatever the number of objects and their finite mask values are,
    where the depth is not zero and the back-projected point is finite: the
    objects and the camera leave the point where it is.  The flow is zero
    where that difference is: where the round trip of the projection does
    not round. *)
Theorem zero_motion_flow_is_round_trip_residue (i j : nat) (d : float)
  (masks : list float) (camera_intrinsics : float * float * float) :
  let x := index_in binary64 j in
  let y := index_in binary64 i in
  let P := _pixels_to_3d_at binary64 x y d camera_intrinsics in
  let x_t := fst (round_trip_at binary64 x y d camera_intrinsics) in
  let y_t := snd (round_trip_at binary64 x y d camera_intrinsics) in
  let flow := flow32_at i j d (map still_object masks) identity64 zero64
                camera_intrinsics in
  Forall (fun m => is_finite64 m = true) masks ->
  finite_point64 P ->
  is_zero64 d = false ->
  sf_same (fst flow) (astype_float32 (x_t - x)) /\
  sf_same (snd flow) (astype_float32 (y_t - y)) /\
  (is_zero64 (x_t - x) = true -> sf_is_zero (fst flow) = true) /\
  (is_zero64 (y_t - y) = true -> sf_is_zero (snd flow) = true).
Proof.
  intros x y P x_t y_t flow Hm FP Hd.
  assert (Hobj : same_point
                   (fold_left (move_at binary64) (map still_object masks) P)
                   P)
    by (apply still_objects_keep; trivial; apply same_point_refl).
  assert (Hcam : same_point
                   (camera_at binary64
                      (fold_left (move_at binary64) (map still_object masks) P)
                      identity64 zero64)
                   P).
  { eapply same_point_trans; [|exact Hobj].
    apply still_camera_keeps. eapply same_point_finite; eassumption. }
  assert (HZ : is_zero64 (snd P) = false).
  { unfold P. destruct camera_intrinsics as [[f x0] y0]. exact Hd. }
  destruct (projection_same _ _ camera_intrinsics Hcam HZ) as [Hx Hy].
  fold (round_trip_at binary64 x y d camera_intrinsics) in Hx, Hy.
  fold x_t in Hx. fold y_t in Hy.
  assert (Hflow : sf_same (fst flow) (astype_float32 (x_t - x)) /\
                  sf_same (snd flow) (astype_float32 (y_t - y))).
  { unfold flow, flow32_at, pixel_flow. fold x y P.
    destruct (_3d_to_pixels_at binary64 _ camera_intrinsics) as [u v].
    cbn [fst snd] in *. cbn [binary64 sub_in].
    split; apply astype_float32_same, same_number_compat; assumption. }
  destruct Hflow as [Fx Fy]. repeat split; trivial.
  - intros Hz. eapply sf_same_zero; [exact Fx|].
    now apply astype_float32_zero.
  - intros Hz. eapply sf_same_zero; [exact Fy|].
    now apply astype_float32_zero.
Qed.

Lemma zero_motion_flow_is_round_trip_residue_witness :
  (let x := index_in binary64 3%nat in
   let y := index_in binary64 2%nat in
   let x_t := fst (round_trip_at binary64 x y 4 (2, 1, 1)) in
   let y_t := snd (round_trip_at binary64 x y 4 (2, 1, 1)) in
   let flow := flow32_at 2%nat 3%nat 4 (map still_object [1; 0.5; 0])
                 identity64 zero64 (2, 1, 1) in
   sf_same (fst flow) (astype_float32 (x_t - x)) /\
   sf_same (snd flow) (astype_float32 (y_t - y)) /\
   (is_zero64 (x_t - x) = true -> sf_is_zero (fst flow) = true) /\
   (is_zero64 (y_t - y) = true -> sf_is_zero (snd flow) = true))%float.
Proof.
  apply (zero_motion_flow_is_round_trip_residue 2 3 4%float
           [1; 0.5; 0]%float (2, 1, 1)%float).
  - repeat constructor.
  - vm_compute. repeat split; reflexivity.
  - reflexivity.
Defined.
End ZeroMotion.

(** ** The round trip of the projection *)


Section RoundTrip.
Import PrimFloat.



End RoundTrip.
